(** * The documentation-snapshot build script (makefile.js), embedded in Rocq

    The development follows the script top-down:
    - [JS]       : the fragment of JavaScript values the script manipulates
                   (plain objects as insertion-ordered property lists, property
                   reads through [Object.prototype], [Object.keys],
                   [JSON.stringify] with an indent);
    - [Detector] : [deepEqual] and the Revision Manifest shape;
    - [Config]   : the configuration records and the [config] constant;
    - [Oracle]   : [fetchSHA], [fetchCurrentMeta], [fetchLatestMeta];
    - [Sys]      : paths, the filesystem calls and the external tools;
    - [Pipeline] : [cloneRepo], [generateJSON], [rf], [writeMeta] and the
                   variants of [build], with the [Promise.all] fan-out run
                   under an explicit schedule;
    - [Scenario] : concrete configurations and environments.
    The properties follow the definitions, module by module. *)

From Stdlib Require Import List String Ascii Bool Arith ZArith Lia Permutation.
From Stdlib Require Import DecimalString.
Import ListNotations.

Local Open Scope string_scope.
Local Open Scope list_scope.

(** ** Completions: a JavaScript evaluation returns or throws *)

Inductive error : Type :=
| TypeError                       (* thrown by the language itself *)
| Error (message : string)        (* [throw new Error(message)] *)
| SystemError (code : string)     (* rejections of node:fs and spawn *)
| NetworkError                    (* [fetch] rejected *)
| SyntaxError.                    (* [r.json()] on a body that is not JSON *)

Inductive completion (A : Type) : Type :=
| Normal (a : A)
| Throw (e : error).

Arguments Normal {A} a.
Arguments Throw {A} e.

Definition bind {A B} (c : completion A) (f : A -> completion B) : completion B :=
  match c with
  | Normal a => f a
  | Throw e => Throw e
  end.

Notation "x <- c ;; k" := (bind c (fun x => k))
  (at level 61, c at next level, right associativity).

Definition is_normal {A} (c : completion A) : bool :=
  match c with Normal _ => true | Throw _ => false end.

(** ** JavaScript values *)

Module JS.

(** The values that reach the script: what [JSON.parse] builds out of
    strings, booleans, [null] and objects, plus [undefined] and what a
    property read can find on [Object.prototype].  Numbers and arrays do not
    occur in a Revision Manifest and are left out.  An object is the list of
    its own enumerable properties in [Object.keys] order. *)
#[warnings="-register-all"]
Inductive value : Type :=
| VUndefined
| VNull
| VBool (b : bool)
| VString (s : string)
| VFunction (name : string)       (* a built-in method of Object.prototype *)
| VObjectPrototype                (* Object.prototype itself *)
| VObject (props : list (string * value)).

Definition props := list (string * value).

(** [typeof v] *)
Definition typeof (v : value) : string :=
  match v with
  | VUndefined => "undefined"
  | VNull => "object"
  | VBool _ => "boolean"
  | VString _ => "string"
  | VFunction _ => "function"
  | VObjectPrototype => "object"
  | VObject _ => "object"
  end.

(** The data properties of [Object.prototype]; all of them are functions and
    none is enumerable. *)
Definition prototype_methods : list string :=
  [ "constructor"; "hasOwnProperty"; "isPrototypeOf"; "propertyIsEnumerable";
    "toLocaleString"; "toString"; "valueOf";
    "__defineGetter__"; "__defineSetter__";
    "__lookupGetter__"; "__lookupSetter__" ].

Definition mem (k : string) (l : list string) : bool :=
  existsb (String.eqb k) l.

(** Own property lookup in a property list. *)
Fixpoint own (ps : props) (k : string) : option value :=
  match ps with
  | [] => None
  | (k', v) :: ps' => if String.eqb k k' then Some v else own ps' k
  end.

(** A read of [k] on [Object.prototype] itself: the accessor [__proto__]
    answers with the prototype of the receiver, which is [null] here. *)
Definition prototype_get (k : string) : value :=
  if String.eqb k "__proto__" then VNull
  else if mem k prototype_methods then VFunction k
  else VUndefined.

(** A read of [k] that was not found among the own properties of a plain
    object and continues on [Object.prototype]: the accessor [__proto__]
    answers [Object.prototype]. *)
Definition inherited (k : string) : value :=
  if String.eqb k "__proto__" then VObjectPrototype
  else if mem k prototype_methods then VFunction k
  else VUndefined.

(** [o[k]].  Reading a property of [undefined] or [null] throws.  On a
    primitive or a function the read goes through the wrapper prototype to
    [Object.prototype]; the wrapper prototypes' own properties are not
    modelled, so the equation is faithful for the keys they do not define
    (the script reads only [commit] and [sha] there). *)
Definition get (o : value) (k : string) : completion value :=
  match o with
  | VUndefined | VNull => Throw TypeError
  | VObject ps =>
      match own ps k with
      | Some v => Normal v
      | None => Normal (inherited k)
      end
  | VObjectPrototype => Normal (prototype_get k)
  | VBool _ | VString _ | VFunction _ =>
      Normal (inherited k)
  end.

Definition index_key (n : nat) : string :=
  NilEmpty.string_of_uint (Nat.to_uint n).

(** [Object.keys(o)]: throws on [undefined] and [null]; a string has its
    indices as keys. *)
Definition Object_keys (o : value) : completion (list string) :=
  match o with
  | VUndefined | VNull => Throw TypeError
  | VObject ps => Normal (map fst ps)
  | VString s => Normal (map index_key (seq 0 (String.length s)))
  | VObjectPrototype | VBool _ | VFunction _ => Normal []
  end.

Definition value_eqb_prim (a b : value) : bool :=
  match a, b with
  | VUndefined, VUndefined => true
  | VNull, VNull => true
  | VBool x, VBool y => Bool.eqb x y
  | VString x, VString y => String.eqb x y
  | VFunction x, VFunction y => String.eqb x y
  | VObjectPrototype, VObjectPrototype => true
  | _, _ => false
  end.

(** [a === b] on two values of the same [typeof] that are not both objects
    built by the script.  Two object literals are never identical, and the
    model keeps no object identities, so [VObject] is never [===] to
    anything; [deepEqual] does not compare objects with [===]. *)
Definition strict_eq (a b : value) : bool := value_eqb_prim a b.

(** *** Property order and assignment

    [Object.keys] lists the array-index keys first, in ascending order, and
    then the other string keys in creation order. *)

(** The array index a key denotes, if it is the canonical decimal form of an
    integer below [2^32 - 1]. *)
Definition array_index (k : string) : option N :=
  match NilEmpty.uint_of_string k with
  | Some u =>
      let n := N.of_uint u in
      if String.eqb (NilEmpty.string_of_uint (N.to_uint n)) k
         && N.ltb n 4294967295
      then Some n else None
  | None => None
  end.

(** Where a new array-index key [n] goes: before the first own key that is
    not an array index or is a greater one. *)
Fixpoint insert_index (ps : props) (n : N) (k : string) (v : value) : props :=
  match ps with
  | [] => [(k, v)]
  | (k', v') :: ps' =>
      match array_index k' with
      | Some n' =>
          if N.ltb n' n then (k', v') :: insert_index ps' n k v
          else (k, v) :: ps
      | None => (k, v) :: ps
      end
  end.

(** Overwriting the value of an own property keeps its place. *)
Fixpoint replace_own (ps : props) (k : string) (v : value) : props :=
  match ps with
  | [] => []
  | (k', v') :: ps' =>
      if String.eqb k k' then (k', v) :: ps'
      else (k', v') :: replace_own ps' k v
  end.

(** [o[k] = v] on a plain object with own properties [ps].  Assigning to
    [__proto__] runs the accessor of [Object.prototype] and creates no own
    property (what it does to the prototype chain when [v] is an object is
    not modelled); the other inherited properties are writable data
    properties, so the assignment creates an own property. *)
Definition set (ps : props) (k : string) (v : value) : props :=
  if String.eqb k "__proto__" then ps
  else match own ps k with
       | Some _ => replace_own ps k v
       | None =>
           match array_index k with
           | Some n => insert_index ps n k v
           | None => ps ++ [(k, v)]
           end
       end.

(** *** [JSON.stringify(v, undefined, space)] *)

Local Open Scope string_scope.

Definition dquote : string := String "034"%char EmptyString.
Definition backslash : string := String "092"%char EmptyString.
Definition newline : string := String "010"%char EmptyString.

Definition hex_digit (n : nat) : string :=
  String.substring n 1 "0123456789abcdef".

(** [QuoteJSONString] on one character; the bytes of a well-formed UTF-8
    string above the control range pass unchanged. *)
Definition escape (c : ascii) : string :=
  let n := nat_of_ascii c in
  if Nat.eqb n 34 then backslash ++ dquote
  else if Nat.eqb n 92 then backslash ++ backslash
  else if Nat.eqb n 8 then backslash ++ "b"
  else if Nat.eqb n 12 then backslash ++ "f"
  else if Nat.eqb n 10 then backslash ++ "n"
  else if Nat.eqb n 13 then backslash ++ "r"
  else if Nat.eqb n 9 then backslash ++ "t"
  else if Nat.ltb n 32
       then backslash ++ "u00" ++ hex_digit (n / 16) ++ hex_digit (n mod 16)
  else String c EmptyString.

Fixpoint escape_all (s : string) : string :=
  match s with
  | EmptyString => EmptyString
  | String c r => escape c ++ escape_all r
  end.

Definition quote (s : string) : string := dquote ++ escape_all s ++ dquote.

Definition spaces (n : nat) : string :=
  String.concat EmptyString (repeat " " n).

(** [SerializeJSONProperty] with a gap: [None] is the [undefined] result,
    and a property whose value serializes to [undefined] is skipped. *)
Fixpoint serialize (gap indent : string) (v : value) : option string :=
  match v with
  | VUndefined | VFunction _ => None
  | VNull => Some "null"
  | VBool b => Some (if b then "true" else "false")
  | VString s => Some (quote s)
  | VObjectPrototype => Some "{}"
  | VObject ps =>
      let stepback := indent in
      let indent := indent ++ gap in
      let partial :=
        (fix members (l : list (string * value)) : list string :=
           match l with
           | [] => []
           | (k, x) :: l' =>
               match serialize gap indent x with
               | Some sx => (quote k ++ ": " ++ sx) :: members l'
               | None => members l'
               end
           end) ps in
      match partial with
      | [] => Some "{}"
      | _ =>
          Some ("{" ++ newline ++ indent
                ++ String.concat ("," ++ newline ++ indent) partial
                ++ newline ++ stepback ++ "}")
      end
  end.

Definition JSON_stringify (v : value) (space : nat) : option string :=
  serialize (spaces (Nat.min space 10)) EmptyString v.

Local Open Scope list_scope.

End JS.

(** ** The Change Detector *)

Module Detector.
Import JS.

(** [deepEqual(a, b)].  The [for (const k of m)] loop is the inner [fix]: it
    walks the own properties of [a] in [Object.keys] order, where [x = a[k]]
    is the value stored under [k] (see [own_get] for objects whose keys are
    distinct), and [y = b[k]] is a full property read on [b]. *)
Fixpoint deepEqual (a b : value) {struct a} : completion bool :=
  if negb (String.eqb (typeof a) (typeof b)) then Normal false
  else if String.eqb (typeof a) "object" then
    match a with
    | VObject pa =>
        n <- Object_keys b ;;
        if negb (Nat.eqb (List.length (map fst pa)) (List.length n))
        then Normal false
        else
          (fix loop (l : props) : completion bool :=
             match l with
             | [] => Normal true
             | (k, x) :: l' =>
                 y <- get b k ;;
                 r <- deepEqual x y ;;
                 if negb r then Normal false else loop l'
             end) pa
    | _ =>
        m <- Object_keys a ;;
        n <- Object_keys b ;;
        if negb (Nat.eqb (List.length m) (List.length n))
        then Normal false
        else Normal true
    end
  else if negb (strict_eq a b) then Normal false
  else Normal true.

(** The loop of [deepEqual], named, for the lemmas. *)
Fixpoint forKeys (l : props) (b : value) : completion bool :=
  match l with
  | [] => Normal true
  | (k, x) :: l' =>
      y <- get b k ;;
      r <- deepEqual x y ;;
      if negb r then Normal false else forKeys l' b
  end.

(** *** Revision Manifests

    [Meta] is [Partial<Record<string, MetaBranch>>] and [MetaBranch] is
    [Partial<Record<string, string>>]; as objects they hold their own
    properties in key order, without repeated keys. *)
Definition MetaBranch := list (string * string).
Definition Meta := list (string * MetaBranch).

Definition branch_value (b : MetaBranch) : value :=
  VObject (map (fun p => (fst p, VString (snd p))) b).

Definition meta_value (m : Meta) : value :=
  VObject (map (fun p => (fst p, branch_value (snd p))) m).

Fixpoint assoc {A} (l : list (string * A)) (k : string) : option A :=
  match l with
  | [] => None
  | (k', v) :: l' => if String.eqb k k' then Some v else assoc l' k
  end.

Definition keys {A} (l : list (string * A)) : list string := map fst l.

Definition wf_branch (b : MetaBranch) : Prop := NoDup (keys b).

Definition wf_meta (m : Meta) : Prop :=
  NoDup (keys m) /\ Forall (fun p => wf_branch (snd p)) m.

(** Same key set and same leaves, one level. *)
Definition same_branch (x y : MetaBranch) : Prop :=
  forall name, assoc x name = assoc y name.

(** Same key sets at both levels and same leaves: the branch records found
    under every key agree, and a key is missing on one side exactly when it
    is missing on the other. *)
Definition same_meta (A B : Meta) : Prop :=
  forall branch,
    match assoc A branch, assoc B branch with
    | Some x, Some y => same_branch x y
    | None, None => True
    | _, _ => False
    end.

(** The one key under which a read that misses the own properties still
    finds an object. *)
Definition proto_key : string := "__proto__".

(** *** What the loops compute, as boolean functions on manifests *)

(** What the loop computes on a branch record. *)
Definition leaf_ok (y : MetaBranch) (p : string * string) : bool :=
  match assoc y (fst p) with
  | Some t => String.eqb (snd p) t
  | None => false
  end.

Definition branch_eqb (x y : MetaBranch) : bool :=
  Nat.eqb (List.length x) (List.length y) && forallb (leaf_ok y) x.

(** A branch record against what a missed read finds on the prototype. *)
Definition inherited_eqb (k : string) (x : MetaBranch) : bool :=
  String.eqb k proto_key && Nat.eqb (List.length x) 0.

Definition record_ok (B : Meta) (p : string * MetaBranch) : bool :=
  match assoc B (fst p) with
  | Some y => branch_eqb (snd p) y
  | None => inherited_eqb (fst p) (snd p)
  end.

Definition meta_eqb (A B : Meta) : bool :=
  Nat.eqb (List.length A) (List.length B) && forallb (record_ok B) A.

(** The one configuration in which a key missing from [B] is still matched:
    [A] maps [__proto__] to an empty record and [B] has no own [__proto__]. *)
Definition proto_trap (A B : Meta) : Prop :=
  assoc A proto_key = Some [] /\ assoc B proto_key = None.

(** A value without [null], at any depth. *)
Fixpoint null_free (v : value) : Prop :=
  match v with
  | VNull => False
  | VObject ps =>
      (fix all (l : list (string * value)) : Prop :=
         match l with
         | [] => True
         | (_, x) :: l' => null_free x /\ all l'
         end) ps
  | _ => True
  end.

End Detector.

(** ** Configuration *)

Module Config.

Record ConfigMeta : Type := {
  owner : string;
  name : string;
  branch : string;
  file : string
}.

Record ConfigSource : Type := {
  s_owner : string;
  s_name : string;
  s_branch : string;
  entryPoint : string
}.

Record Config : Type := {
  meta : ConfigMeta;
  sources : list ConfigSource
}.

(** The [config] constant of the change-detection script. *)
Definition config : Config := {|
  meta := {| owner := "vanyauhalin";
             name := "onlyoffice-docspace-plugin-sdk-declarations";
             branch := "dist";
             file := "meta.json" |};
  sources := [ {| s_owner := "onlyoffice";
                  s_name := "docspace-plugin-sdk";
                  s_branch := "master";
                  entryPoint := "src/index.ts" |} ]
|}.

End Config.

(** ** The Revision Oracle Client and the remote manifest *)

Module Oracle.
Import JS Config.

Local Open Scope string_scope.

(** What [await fetch(u)] gives: a rejection when the request itself fails,
    otherwise a response with its status and its body, [None] when the body
    is not JSON text. *)
Inductive http : Type :=
| Unreachable
| Response (status : nat) (body : option value).

(** The remote side, as the answers it gives to the URLs of one run. *)
Definition remote := string -> http.

(** [r.json()] *)
Definition json (body : option value) : completion value :=
  match body with
  | Some j => Normal j
  | None => Throw SyntaxError
  end.

Definition sha_url (s : ConfigSource) : string :=
  "https://api.github.com/repos/" ++ s_owner s ++ "/" ++ s_name s
  ++ "/branches/" ++ s_branch s.

(** [fetchSHA(s)] *)
Definition fetchSHA (fetch : remote) (s : ConfigSource) : completion value :=
  let u := sha_url s in
  match fetch u with
  | Unreachable => Throw NetworkError
  | Response status body =>
      if negb (Nat.eqb status 200)
      then Throw (Error ("Failed to fetch commit SHA for " ++ s_name s))
      else
        j <- json body ;;
        commit <- get j "commit" ;;
        get commit "sha"
  end.

Definition meta_url (c : Config) : string :=
  "https://raw.githubusercontent.com/" ++ owner (meta c) ++ "/"
  ++ name (meta c) ++ "/" ++ branch (meta c) ++ "/" ++ file (meta c).

(** [fetchCurrentMeta(c)] *)
Definition fetchCurrentMeta (fetch : remote) (c : Config) : completion value :=
  let u := meta_url c in
  match fetch u with
  | Unreachable => Throw NetworkError
  | Response status body =>
      if negb (Nat.eqb status 200) then Normal (VObject [])
      else json body
  end.

Local Open Scope list_scope.

(** What a promise has come to when the observation ends: settled with a
    completion, or still pending. *)
Inductive outcome (A : Type) : Type :=
| Settled (c : completion A)
| Pending.

Arguments Settled {A} c.
Arguments Pending {A}.

(** *** [fetchLatestMeta]

    The callbacks of [c.sources.map] all run up to their first [await]
    before any lookup answers: each reads [m[s.branch]], installs a fresh
    record when the read gives [undefined], and keeps [b], a reference to
    the record it will write to.  The reference is modelled by where the
    object lives: an own record of [m], or an object found through
    [Object.prototype], which is not part of [m]. *)
Inductive target : Type :=
| Own (branch : string)
| Foreign (o : value).

Record meta_state : Type := {
  m : props;                               (* own properties of [m] *)
  elsewhere : list (value * string * value) (* writes that landed outside [m] *)
}.

(** [let b = m[s.branch]; if (b === undefined) { b = {}; m[s.branch] = b }] *)
Definition install (st : meta_state) (s : ConfigSource) : meta_state * target :=
  let fresh := ({| m := set (m st) (s_branch s) (VObject []);
                   elsewhere := elsewhere st |}, Own (s_branch s)) in
  match own (m st) (s_branch s) with
  | Some VUndefined => fresh
  | Some _ => (st, Own (s_branch s))
  | None =>
      match inherited (s_branch s) with
      | VUndefined => fresh
      | o => (st, Foreign o)
      end
  end.

(** The synchronous part of the fan-out, in source order. *)
Fixpoint install_all (st : meta_state) (l : list ConfigSource)
  : meta_state * list (ConfigSource * target) :=
  match l with
  | [] => (st, [])
  | s :: l' =>
      let '(st1, b) := install st s in
      let '(st2, bs) := install_all st1 l' in
      (st2, (s, b) :: bs)
  end.

(** [b[s.name] = sha], once the lookup of [s] has answered.  A write
    through a reference that [m] does not own (the branch names a property
    of [Object.prototype]) is only kept in [elsewhere]: what it does to the
    object it lands on is not modelled, neither the [TypeError] of a write
    to a non-writable property of a function nor what later reads find on a
    changed [Object.prototype].  The sources called [ordinary] below never
    hold such a reference. *)
Definition assign (st : meta_state) (b : target) (k : string) (v : value)
  : meta_state :=
  match b with
  | Own br =>
      match own (m st) br with
      | Some (VObject r) =>
          {| m := replace_own (m st) br (VObject (set r k v));
             elsewhere := elsewhere st |}
      | _ => st
      end
  | Foreign o =>
      {| m := m st; elsewhere := elsewhere st ++ [(o, k, v)] |}
  end.

(** The lookups answer in the order [order] (positions in [c.sources]); an
    answer for a lookup that has already settled, or for no lookup, is
    ignored.  The first rejection rejects [Promise.all]; when every lookup
    has been fulfilled it resolves. *)
Fixpoint deliver (fetch : remote) (tasks : list (ConfigSource * target))
    (order : list nat) (settled : list nat) (st : meta_state)
  : outcome meta_state :=
  match order with
  | [] =>
      if Nat.eqb (List.length settled) (List.length tasks)
      then Settled (Normal st) else Pending
  | i :: order' =>
      if existsb (Nat.eqb i) settled then deliver fetch tasks order' settled st
      else
        match nth_error tasks i with
        | None => deliver fetch tasks order' settled st
        | Some (s, b) =>
            match fetchSHA fetch s with
            | Throw e => Settled (Throw e)
            | Normal sha =>
                deliver fetch tasks order' (i :: settled)
                        (assign st b (s_name s) sha)
            end
        end
  end.

(** [fetchLatestMeta(c)] *)
Definition fetchLatestMeta (fetch : remote) (order : list nat) (c : Config)
  : outcome value :=
  let '(st, tasks) :=
    install_all {| m := []; elsewhere := [] |} (sources c) in
  match deliver fetch tasks order [] st with
  | Settled (Normal st') => Settled (Normal (VObject (m st')))
  | Settled (Throw e) => Settled (Throw e)
  | Pending => Pending
  end.

(** *** The shape of the resolved manifest *)

(** The leaf under [branch] and [name]. *)
Definition cell (ps : props) (br nm : string) : option value :=
  match own ps br with
  | Some (VObject r) => own r nm
  | _ => None
  end.

(** The place of a source in the manifest. *)
Definition slot (s : ConfigSource) : string * string := (s_branch s, s_name s).

(** A source whose branch is not the name of a property of
    [Object.prototype] and whose repository name is not [__proto__]. *)
Definition ordinary (s : ConfigSource) : Prop :=
  inherited (s_branch s) = VUndefined /\ s_name s <> "__proto__".

(** The state of [m] when the lookups at the positions [settled] of [l]
    have been fulfilled: one record per branch of [l], holding the
    revisions of exactly those lookups. *)
Definition resolved_upto (fetch : remote) (l : list ConfigSource)
    (settled : list nat) (ps : props) : Prop :=
  (forall br, In br (map s_branch l) -> exists r, own ps br = Some (VObject r)) /\
  (forall br, ~ In br (map s_branch l) -> own ps br = None) /\
  (forall br nm v,
      cell ps br nm = Some v <->
      exists i s, In i settled /\ nth_error l i = Some s /\
                  slot s = (br, nm) /\ fetchSHA fetch s = Normal v) /\
  NoDup (map fst ps) /\
  (forall br r, own ps br = Some (VObject r) -> NoDup (map fst r)).

(** Every key of [ps] is the branch of a source of [l] and names no
    property of [Object.prototype]; under it lies a record whose keys are
    repository names of [l], none of them [__proto__]. *)
Definition only_ordinary (l : list ConfigSource) (ps : props) : Prop :=
  forall br x,
    own ps br = Some x ->
    inherited br = VUndefined /\ In br (map s_branch l) /\
    exists r, x = VObject r /\
              forall nm, own r nm <> None ->
                         nm <> "__proto__" /\ In nm (map s_name l).

(** The reference a callback of a source of [l] can hold. *)
Definition target_of (l : list ConfigSource) (t : ConfigSource * target)
  : Prop :=
  In (fst t) l /\
  (snd t = Own (s_branch (fst t)) \/ exists o, snd t = Foreign o).

End Oracle.

(** ** Paths, the filesystem and the external tools *)

Module Sys.
Import JS Config.

(** An absolute POSIX path, as its segments below the root. *)
Definition path := list string.

Fixpoint path_eqb (p q : path) : bool :=
  match p, q with
  | [], [] => true
  | a :: p', b :: q' => String.eqb a b && path_eqb p' q'
  | _, _ => false
  end.

(** [is_prefix p q]: [q] is [p] or lies below it. *)
Fixpoint is_prefix (p q : path) : bool :=
  match p, q with
  | [], _ => true
  | a :: p', b :: q' => String.eqb a b && is_prefix p' q'
  | _ :: _, [] => false
  end.

Fixpoint split_slash (s cur : string) : list string :=
  match s with
  | EmptyString => [cur]
  | String c r =>
      if Ascii.eqb c "/" then cur :: split_slash r EmptyString
      else split_slash r (cur ++ String c EmptyString)%string
  end.

Definition push (p : path) (seg : string) : path :=
  if String.eqb seg EmptyString then p
  else if String.eqb seg "." then p
  else if String.eqb seg ".." then removelast p
  else p ++ [seg].

(** [join(p, s)] of node:path: the segments of [s] are appended and the
    result is normalized. *)
Definition join (p : path) (s : string) : path :=
  fold_left push (split_slash s EmptyString) p.

(** A string that [join] appends as one segment. *)
Definition plain (seg : string) : Prop :=
  split_slash seg EmptyString = [seg] /\
  seg <> EmptyString /\ seg <> "." /\ seg <> "..".

(** The path as the string the script passes around. *)
Definition path_string (p : path) : string :=
  match p with
  | [] => "/"
  | _ => String.concat EmptyString (map (fun seg => ("/" ++ seg)%string) p)
  end.

(** [`${d}-`] followed by what [mkdtemp] appends. *)
Definition append_last (p : path) (suffix : string) : path :=
  match p with
  | [] => [suffix]
  | _ => removelast p ++ [(last p EmptyString ++ suffix)%string]
  end.

(** Calls that leave the process, in the order they complete, each with
    whether it succeeded. *)
Inductive call : Type :=
| stdout_line (text : string)
| fs_mkdir (p : path)
| fs_mkdtemp (p : path)
| spawn (command : string) (args : list string)
| typedoc_bootstrap (entryPoints : list path) (tsconfig : path)
| typedoc_generateJson (f : path) (document : string)
| fs_rm (p : path)
| fs_rmdir (p : path)
| fs_writeFile (f : path) (content : string).

Record world : Type := {
  dirs : list path;                 (* directories other than the root *)
  files : list (path * string);     (* regular files and their content *)
  log : list (call * bool)
}.

(** How the child process of [spawn] ends: the [error] event, or the [close]
    event with the exit code ([None]: ended by a signal). *)
Inductive child : Type :=
| SpawnError (code : string)
| Close (code : option nat).

(** What the extractor does with an entry point. *)
Inductive extraction : Type :=
| Crash (e : error)          (* [bootstrapWithPlugins] or [convert] rejects *)
| NoProject                  (* [convert] gives [undefined] *)
| Project (document : string).

(** Everything the run does not decide itself. *)
Record env : Type := {
  fetch : string -> Oracle.http;
  git : list string -> child;
  typedoc : path -> path -> extraction;
  denied : path -> bool;           (* paths the process may not modify *)
  module_dir : path;               (* [new URL(".", import.meta.url)] *)
  os_tmpdir : path;                (* [tmpdir()] *)
  pack_name : string;              (* [pack.name] of package.json *)
  mkdtemp_suffix : string          (* the six characters [mkdtemp] picks *)
}.

Definition io (A : Type) : Type := world -> world * completion A.

Definition ret {A} (a : A) : io A := fun w => (w, Normal a).

Definition raise {A} (e : error) : io A := fun w => (w, Throw e).

Definition and_then {A B} (c : io A) (f : A -> io B) : io B :=
  fun w =>
    match c w with
    | (w', Normal a) => f a w'
    | (w', Throw e) => (w', Throw e)
    end.

Definition record (c : call) (ok : bool) (w : world) : world :=
  {| dirs := dirs w; files := files w; log := log w ++ [(c, ok)] |}.

Definition is_dir (w : world) (p : path) : bool :=
  match p with
  | [] => true
  | _ => existsb (path_eqb p) (dirs w)
  end.

Definition is_file (w : world) (p : path) : bool :=
  existsb (fun e => path_eqb p (fst e)) (files w).

(** [existsSync(p)] *)
Definition existsSync (w : world) (p : path) : bool :=
  is_dir w p || is_file w p.

Definition has_entries (w : world) (p : path) : bool :=
  existsb (fun q => is_prefix p q && negb (path_eqb p q)) (dirs w)
  || existsb (fun e => is_prefix p (fst e) && negb (path_eqb p (fst e)))
       (files w).

Definition fail {A} (c : call) (code : string) : io A :=
  fun w => (record c false w, Throw (SystemError code)).

Definition create_dir (c : call) (E : env) (p : path) : io unit :=
  fun w =>
    if denied E p then fail c "EACCES" w
    else if existsSync w p then fail c "EEXIST" w
    else if negb (is_dir w (removelast p)) then fail c "ENOENT" w
    else (record c true {| dirs := dirs w ++ [p]; files := files w;
                           log := log w |}, Normal tt).

(** [mkdir(p)] of node:fs/promises, not recursive. *)
Definition mkdir (E : env) (p : path) : io unit := create_dir (fs_mkdir p) E p.

(** [mkdtemp(prefix)]: the directory is [prefix] extended by the suffix the
    system picks. *)
Definition mkdtemp (E : env) (prefix : path) : io path :=
  let p := append_last prefix (mkdtemp_suffix E) in
  and_then (create_dir (fs_mkdtemp p) E p) (fun _ => ret p).

(** [rm(p, {recursive: true, force: true})]: removes [p] and what is below
    it; a missing [p] is not an error. *)
Definition rm (E : env) (p : path) : io unit :=
  fun w =>
    if denied E p then fail (fs_rm p) "EACCES" w
    else (record (fs_rm p) true
            {| dirs := filter (fun q => negb (is_prefix p q)) (dirs w);
               files := filter (fun e => negb (is_prefix p (fst e))) (files w);
               log := log w |}, Normal tt).

(** [rmdir(p)]: only an existing, empty directory is removed. *)
Definition rmdir (E : env) (p : path) : io unit :=
  fun w =>
    if denied E p then fail (fs_rmdir p) "EACCES" w
    else if negb (existsb (path_eqb p) (dirs w)) then
      fail (fs_rmdir p) (if is_file w p then "ENOTDIR" else "ENOENT") w
    else if has_entries w p then fail (fs_rmdir p) "ENOTEMPTY" w
    else (record (fs_rmdir p) true
            {| dirs := filter (fun q => negb (path_eqb p q)) (dirs w);
               files := files w; log := log w |}, Normal tt).

Definition store (c : call) (E : env) (f : path) (content : string) : io unit :=
  fun w =>
    if denied E f then fail c "EACCES" w
    else if is_dir w f then fail c "EISDIR" w
    else if negb (is_dir w (removelast f)) then fail c "ENOENT" w
    else (record c true
            {| dirs := dirs w;
               files := filter (fun e => negb (path_eqb f (fst e))) (files w)
                        ++ [(f, content)];
               log := log w |}, Normal tt).

(** [writeFile(f, content)] *)
Definition writeFile (E : env) (f : path) (content : string) : io unit :=
  store (fs_writeFile f content) E f content.

(** The directories above [p], the root left out, outermost first. *)
Definition ancestors (p : path) : list path :=
  map (fun n => firstn n p) (seq 1 (List.length p - 1)).

(** The directories of [l] up to the first one the process may not
    create. *)
Fixpoint allowed_prefix (E : env) (l : list path) : list path :=
  match l with
  | [] => []
  | q :: l' => if denied E q then [] else q :: allowed_prefix E l'
  end.

(** How the extractor writes a file: it first creates the directories
    above [f] that are missing ([mkdir] with [recursive: true], outermost
    first) and then writes [f].  The directories created before a failure
    stay. *)
Definition store_deep (c : call) (E : env) (f : path) (content : string)
  : io unit :=
  fun w =>
    let missing := filter (fun q => negb (is_dir w q)) (ancestors f) in
    let made := {| dirs := dirs w ++ allowed_prefix E missing;
                   files := files w; log := log w |} in
    if existsb (is_file w) (ancestors f) then fail c "ENOTDIR" w
    else if existsb (denied E) missing then fail c "EACCES" made
    else if denied E f then fail c "EACCES" made
    else if is_dir w f then fail c "EISDIR" made
    else (record c true
            {| dirs := dirs w ++ missing;
               files := filter (fun e => negb (path_eqb f (fst e))) (files w)
                        ++ [(f, content)];
               log := log w |}, Normal tt).

End Sys.

(** ** The script *)

Module Pipeline.
Import JS Config Oracle Sys Detector.

Notation "x <~ c ;; k" := (and_then c (fun x => k))
  (at level 61, c at next level, right associativity).

(** The [Console] of [createConsole]: [info(...data)] prints [info:] before
    the data. *)
Definition console_info (data : string) : io unit :=
  fun w => (record (stdout_line ("info: " ++ data)%string) true w, Normal tt).

Definition rootDir (E : env) : path := module_dir E.

Definition distDir (r : path) : path := join r "dist".

Definition createTempDir (E : env) : io path :=
  let d := join (os_tmpdir E) (pack_name E) in
  mkdtemp E (append_last d "-").

Definition clone_args (d : path) (s : ConfigSource) : list string :=
  [ "clone"; "--progress"; "--depth"; "1"; "--branch"; s_branch s;
    "--single-branch";
    ("https://github.com/" ++ s_owner s ++ "/" ++ s_name s ++ ".git")%string;
    path_string d ].

(** [cloneRepo(d, s)]: the promise is resolved by the [close] event,
    whatever the exit code, and rejected by the [error] event.  A clone that
    exits with 0 leaves a repository in [d]. *)
Definition cloneRepo (E : env) (d : path) (s : ConfigSource) : io unit :=
  fun w =>
    let c := spawn "git" (clone_args d s) in
    match git E (clone_args d s) with
    | SpawnError code => (record c false w, Throw (SystemError code))
    | Close code =>
        let w' :=
          match code with
          | Some 0 =>
              if is_dir w d && negb (existsSync w (d ++ [".git"]))
              then {| dirs := dirs w ++ [d ++ [".git"]]; files := files w;
                      log := log w |}
              else w
          | _ => w
          end in
        (record c true w', Normal tt)
    end.

Definition tsconfigFile (d : path) : path := join d "tsconfig.json".

(** [generateJSON(opts, f)] with [opts = {entryPoints: [entry], tsconfig}].
    [bootstrapWithPlugins] and [convert] read the clone and write nothing;
    what they give is the [typedoc] of the environment, and the three
    [await]s of the function are taken as one step of the callback.
    [generateJson] creates the directories above [f] that are missing. *)
Definition generateJSON (E : env) (entry tsconfig f : path) : io unit :=
  fun w =>
    let c := typedoc_bootstrap [entry] tsconfig in
    match typedoc E entry tsconfig with
    | Crash e => (record c false w, Throw e)
    | NoProject => (record c true w, Throw (Error "Project is missing"))
    | Project doc =>
        store_deep (typedoc_generateJson f doc) E f doc (record c true w)
    end.

Definition rf (E : env) (p : path) : io unit := rm E p.

(** [writeMeta(c, d, m)]; [writeFile] refuses [undefined] data before it
    touches the file. *)
Definition writeMeta (E : env) (c : Config) (d : path) (m : value) : io unit :=
  let f := join d (file (meta c)) in
  match JSON_stringify m 2 with
  | Some text => writeFile E f text
  | None => raise TypeError
  end.

(** *** One source's sub-pipeline

    The callback of [config.sources.map] is suspended at one of its five
    [await]s, or has settled. *)
Inductive stage : Type :=
| AwaitMkdirSt
| AwaitCloneRepo
| AwaitMkdirSd
| AwaitGenerateJSON
| AwaitRf
| Fulfilled
| Rejected (e : error).

Definition st_of (td : path) (s : ConfigSource) : path := join td (s_branch s).
Definition sd_of (dd : path) (s : ConfigSource) : path := join dd (s_branch s).

Definition artifact_of (dd : path) (s : ConfigSource) : path :=
  join (sd_of dd s) (s_name s ++ ".json")%string.

Definition entry_of (td : path) (s : ConfigSource) : path :=
  join (st_of td s) (entryPoint s).

Definition next (r : completion unit) (k : stage) : stage :=
  match r with
  | Normal _ => k
  | Throw e => Rejected e
  end.

(** The awaited call completes and the callback runs on to its next
    [await]. *)
Definition resume (E : env) (td dd : path) (s : ConfigSource) (g : stage)
    (w : world) : world * stage :=
  let st := st_of td s in
  let sd := sd_of dd s in
  match g with
  | AwaitMkdirSt =>
      let '(w', r) := mkdir E st w in (w', next r AwaitCloneRepo)
  | AwaitCloneRepo =>
      let '(w', r) := cloneRepo E st s w in
      (w', next r (if negb (existsSync w' sd) then AwaitMkdirSd
                   else AwaitGenerateJSON))
  | AwaitMkdirSd =>
      let '(w', r) := mkdir E sd w in (w', next r AwaitGenerateJSON)
  | AwaitGenerateJSON =>
      let '(w', r) :=
        generateJSON E (entry_of td s) (tsconfigFile st) (artifact_of dd s) w in
      (w', next r AwaitRf)
  | AwaitRf =>
      let '(w', r) := rf E st w in (w', next r Fulfilled)
  | Fulfilled => (w, Fulfilled)
  | Rejected e => (w, Rejected e)
  end.

(** *** [Promise.all] over the sub-pipelines

    [tasks] holds every source with the stage of its callback, [first] the
    reason of the first rejection.  The schedule names, step by step, the
    source whose awaited call completes next. *)
Record fanout : Type := {
  tasks : list (ConfigSource * stage);
  first : option error
}.

(** The reason a resumption hands to [Promise.all]. *)
Definition rejection (g g' : stage) : option error :=
  match g, g' with
  | Rejected _, _ => None
  | _, Rejected e => Some e
  | _, _ => None
  end.

Fixpoint resume_nth (E : env) (td dd : path) (i : nat)
    (l : list (ConfigSource * stage)) (w : world)
  : world * list (ConfigSource * stage) * option error :=
  match l, i with
  | [], _ => (w, [], None)
  | (s, g) :: l', 0 =>
      let '(w', g') := resume E td dd s g w in
      (w', (s, g') :: l', rejection g g')
  | t :: l', S j =>
      let '(w', l'', r) := resume_nth E td dd j l' w in (w', t :: l'', r)
  end.

Fixpoint run (E : env) (td dd : path) (sched : list nat) (f : fanout)
    (w : world) : world * fanout :=
  match sched with
  | [] => (w, f)
  | i :: sched' =>
      let '(w', l, r) := resume_nth E td dd i (tasks f) w in
      run E td dd sched'
          {| tasks := l;
             first := match first f with Some e => Some e | None => r end |}
          w'
  end.

Definition all_fulfilled (l : list (ConfigSource * stage)) : bool :=
  forallb (fun t => match snd t with Fulfilled => true | _ => false end) l.

(** The state of the promise [Promise.all] returned. *)
Definition settle (f : fanout) : outcome unit :=
  match first f with
  | Some e => Settled (Throw e)
  | None => if all_fulfilled (tasks f) then Settled (Normal tt) else Pending
  end.

Definition start (c : Config) : fanout :=
  {| tasks := map (fun s => (s, AwaitMkdirSt)) (sources c); first := None |}.

(** *** Reading the log *)

Definition is_rejected (g : stage) : bool :=
  match g with Rejected _ => true | _ => false end.

(** What the call awaited at [g] appends to the log when it completes, with
    [ok] telling whether the callback went on. *)
Definition emitted (E : env) (td dd : path) (s : ConfigSource) (g : stage)
    (ok : bool) : list (call * bool) :=
  match g with
  | AwaitMkdirSt => [(fs_mkdir (st_of td s), ok)]
  | AwaitCloneRepo => [(spawn "git" (clone_args (st_of td s) s), ok)]
  | AwaitMkdirSd => [(fs_mkdir (sd_of dd s), ok)]
  | AwaitGenerateJSON =>
      let c := typedoc_bootstrap [entry_of td s] (tsconfigFile (st_of td s)) in
      match typedoc E (entry_of td s) (tsconfigFile (st_of td s)) with
      | Crash _ => [(c, false)]
      | NoProject => [(c, true)]
      | Project doc =>
          [(c, true); (typedoc_generateJson (artifact_of dd s) doc, ok)]
      end
  | AwaitRf => [(fs_rm (st_of td s), ok)]
  | Fulfilled | Rejected _ => []
  end.

(** The stages a callback can be resumed into from [g] when the awaited
    call succeeds. *)
Definition follows (g g' : stage) : Prop :=
  match g with
  | AwaitMkdirSt => g' = AwaitCloneRepo
  | AwaitCloneRepo => g' = AwaitMkdirSd \/ g' = AwaitGenerateJSON
  | AwaitMkdirSd => g' = AwaitGenerateJSON
  | AwaitGenerateJSON => g' = AwaitRf
  | AwaitRf => g' = Fulfilled
  | Fulfilled => g' = Fulfilled
  | Rejected e => g' = Rejected e
  end.

(** The calls a sub-pipeline makes. *)
Definition task_call (e : call * bool) : bool :=
  match fst e with
  | fs_mkdir _ | spawn _ _ | typedoc_bootstrap _ _
  | typedoc_generateJson _ _ | fs_rm _ => true
  | _ => false
  end.

Definition is_artifact (e : call * bool) : bool :=
  match fst e with typedoc_generateJson _ _ => true | _ => false end.

Definition is_writeFile (e : call * bool) : bool :=
  match fst e with fs_writeFile _ _ => true | _ => false end.

Definition is_rmdir (e : call * bool) : bool :=
  match fst e with fs_rmdir _ => true | _ => false end.

(** The document the extractor produces for [s]. *)
Definition doc_of (E : env) (td : path) (s : ConfigSource) : string :=
  match typedoc E (entry_of td s) (tsconfigFile (st_of td s)) with
  | Project doc => doc
  | _ => EmptyString
  end.

(** The successful write of the Output Artifact of [s]. *)
Definition artifact_event (E : env) (td dd : path) (s : ConfigSource)
  : call * bool :=
  (typedoc_generateJson (artifact_of dd s) (doc_of E td s), true).

(** The callback is past its [generateJSON]. *)
Definition wrote (g : stage) : bool :=
  match g with AwaitRf | Fulfilled => true | _ => false end.

Definition written (E : env) (td dd : path) (l : list (ConfigSource * stage))
  : list (call * bool) :=
  flat_map (fun t => if wrote (snd t) then [artifact_event E td dd (fst t)]
                     else []) l.

(** [x] occurs in [l] and [y] occurs later. *)
Definition before {A} (x y : A) (l : list A) : Prop :=
  exists a b c, l = a ++ x :: b ++ y :: c.

(** What the log holds about a source whose callback is at [g]: its
    subdirectory was reserved once the first [await] is behind it, and
    released after that once the callback is fulfilled. *)
Definition reserved_released (td : path) (s : ConfigSource) (g : stage)
    (l : list (call * bool)) : Prop :=
  match g with
  | AwaitMkdirSt | Rejected _ => True
  | Fulfilled =>
      before (fs_mkdir (st_of td s), true) (fs_rm (st_of td s), true) l
  | _ => In (fs_mkdir (st_of td s), true) l
  end.



(** *** Reading the filesystem *)









Definition finish (c : io unit) : world -> world * outcome unit :=
  fun w => let '(w', r) := c w in (w', Settled r).

(** The sequential head of the pipeline: the output root, then the
    workspace root. *)
Definition prepare (E : env) : io path :=
  let dd := distDir (rootDir E) in
  _ <~ (fun w => if negb (existsSync w dd) then mkdir E dd w else ret tt w) ;;
  createTempDir E.

(** The part the three variants of [build] share: the output root, the
    workspace, the fan-out under [Promise.all] and [rmdir(td)]; [final dd]
    is what the variant does after that. *)
Definition workspace_build (E : env) (sched : list nat) (c : Config)
    (final : path -> world -> world * outcome unit)
  : world -> world * outcome unit :=
  fun w =>
    let dd := distDir (rootDir E) in
    match prepare E w with
    | (w1, Throw e) => (w1, Settled (Throw e))
    | (w1, Normal td) =>
        let '(w2, f) := run E td dd sched (start c) w1 in
        match settle f with
        | Settled (Normal _) =>
            match rmdir E td w2 with
            | (w3, Normal _) => final dd w3
            | (w3, Throw e) => (w3, Settled (Throw e))
            end
        | Settled (Throw e) => (w2, Settled (Throw e))
        | Pending => (w2, Pending)
        end
    end.

(** [build] of the variant that only rebuilds (no manifest). *)
Definition build_plain (E : env) (sched : list nat) (c : Config)
  : world -> world * outcome unit :=
  workspace_build E sched c (fun _ => finish (ret tt)).

(** [build] of makefile.js: resolve, rebuild, write the manifest. *)
Definition build_always (E : env) (order sched : list nat) (c : Config)
  : world -> world * outcome unit :=
  fun w =>
    match fetchLatestMeta (fetch E) order c with
    | Pending => (w, Pending)
    | Settled (Throw e) => (w, Settled (Throw e))
    | Settled (Normal latest) =>
        workspace_build E sched c
          (fun dd => finish (writeMeta E c dd latest)) w
    end.

(** [build] of the change-detection variant. *)
Definition build (E : env) (order sched : list nat) (c : Config)
  : world -> world * outcome unit :=
  fun w =>
    match fetchLatestMeta (fetch E) order c with
    | Pending => (w, Pending)
    | Settled (Throw e) => (w, Settled (Throw e))
    | Settled (Normal latest) =>
        match fetchCurrentMeta (fetch E) c with
        | Throw e => (w, Settled (Throw e))
        | Normal current =>
            match deepEqual current latest with
            | Throw e => (w, Settled (Throw e))
            | Normal true => finish (console_info "No updates") w
            | Normal false =>
                workspace_build E sched c
                  (fun dd => finish (writeMeta E c dd latest)) w
            end
        end
    end.

(** *** Invariants of the fan-out *)

(** A rejected callback has rejected [Promise.all]. *)
Definition coherent (f : fanout) : Prop :=
  forall s e, In (s, Rejected e) (tasks f) -> first f <> None.

Definition artifact_logged (E : env) (td dd : path) (s : ConfigSource)
    (g : stage) (l : list (call * bool)) : Prop :=
  wrote g = true ->
  In (artifact_event E td dd s) l /\
  typedoc E (entry_of td s) (tsconfigFile (st_of td s))
  = Project (doc_of E td s).

Definition unrejected (l : list (ConfigSource * stage)) : Prop :=
  Forall (fun t => is_rejected (snd t) = false) l.

Definition wrote_event (E : env) (td dd : path) (s : ConfigSource) (g : stage)
  : list (call * bool) :=
  if wrote g then [artifact_event E td dd s] else [].

Definition setup_call (e : call * bool) : bool :=
  match fst e with fs_mkdir _ | fs_mkdtemp _ => true | _ => false end.

(** The stages of a callback whose clone cannot be spawned. *)
Definition held_at_clone (g : stage) : Prop :=
  match g with
  | AwaitMkdirSt | AwaitCloneRepo | Rejected _ => True
  | _ => False
  end.

(** What is known of a callback at [g] when [git] cannot be spawned for its
    source. *)
Definition no_child (E : env) (td : path) (s : ConfigSource) (g : stage)
    (l : list (call * bool)) : Prop :=
  (exists code, git E (clone_args (st_of td s) s) = SpawnError code) ->
  held_at_clone g.

(** *** The order of the calls of one source *)

(** [l1] can be read off [l2], left to right, skipping entries. *)
Inductive subseq {A : Type} : list A -> list A -> Prop :=
| subseq_nil : forall l, subseq [] l
| subseq_skip : forall x l1 l2, subseq l1 l2 -> subseq l1 (x :: l2)
| subseq_take : forall x l1 l2, subseq l1 l2 -> subseq (x :: l1) (x :: l2).

(** The successful calls of the callback of [s], in program order (the
    [mkdir(sd)] that depends on [existsSync(sd)] left out). *)
Definition own_calls (E : env) (td dd : path) (s : ConfigSource)
  : list (call * bool) :=
  [ (fs_mkdir (st_of td s), true);
    (spawn "git" (clone_args (st_of td s) s), true);
    (typedoc_bootstrap [entry_of td s] (tsconfigFile (st_of td s)), true);
    artifact_event E td dd s;
    (fs_rm (st_of td s), true) ].

(** How many of [own_calls] lie behind a callback at [g]. *)
Definition progress (g : stage) : nat :=
  match g with
  | AwaitMkdirSt | Rejected _ => 0
  | AwaitCloneRepo => 1
  | AwaitMkdirSd | AwaitGenerateJSON => 2
  | AwaitRf => 4
  | Fulfilled => 5
  end.

Definition in_order (E : env) (td dd : path) (s : ConfigSource) (g : stage)
    (l : list (call * bool)) : Prop :=
  subseq (firstn (progress g) (own_calls E td dd s)) l.

End Pipeline.

(** ** Concrete runs *)

Module Scenario.
Import JS Config Oracle Sys Pipeline.

Local Open Scope string_scope.

Definition source (o n b : string) : ConfigSource :=
  {| s_owner := o; s_name := n; s_branch := b; entryPoint := "src/index.ts" |}.

Definition with_sources (l : list ConfigSource) : Config :=
  {| meta := meta config; sources := l |}.

(** One source, [o/r1] at [main]. *)
Definition one : Config := with_sources [source "o" "r1" "main"].

(** Two sources on different branches. *)
Definition two : Config :=
  with_sources [source "o" "r1" "main"; source "o" "r1" "develop"].

(** Two sources that differ in their owner only. *)
Definition forks : Config :=
  with_sources [source "o1" "r" "main"; source "o2" "r" "main"].

(** The body of a branch lookup that names revision [sha]. *)
Definition branch_body (sha : string) : option value :=
  Some (VObject [("name", VString "b");
                 ("commit", VObject [("sha", VString sha)])]).

Definition starts_with (p s : string) : bool := String.prefix p s.

(** A remote that answers every revision lookup with [sha] and the manifest
    request with [published]. *)
Definition remote_with (sha : string) (published : http) : remote :=
  fun u =>
    if starts_with "https://api.github.com/" u
    then Response 200 (branch_body sha)
    else published.

(** A remote that names the owner as the revision. *)
Definition remote_by_owner : remote :=
  fun u =>
    if String.eqb u (sha_url (source "o1" "r" "main"))
    then Response 200 (branch_body "a1")
    else if String.eqb u (sha_url (source "o2" "r" "main"))
    then Response 200 (branch_body "b2")
    else Response 404 None.

Definition machine (f : remote) (g : list string -> child)
    (t : path -> path -> extraction) : env :=
  {| fetch := f; git := g; typedoc := t; denied := fun _ => false;
     module_dir := ["repo"]; os_tmpdir := ["tmp"]; pack_name := "pkg";
     mkdtemp_suffix := "AbCdEf" |}.

Definition clone_ok : list string -> child := fun _ => Close (Some 0).
Definition extract_ok : path -> path -> extraction := fun _ _ => Project "DOC".

(** Nothing published yet. *)
Definition first_run : env :=
  machine (remote_with "abc123" (Response 404 None)) clone_ok extract_ok.

(** The published manifest already names [abc123]. *)
Definition unchanged : env :=
  machine (remote_with "abc123"
             (Response 200
                (Some (VObject [("main", VObject [("r1", VString "abc123")])]))))
          clone_ok extract_ok.

(** The manifest URL answers 200 with a body that is not JSON. *)
Definition garbled : env :=
  machine (remote_with "abc123" (Response 200 None)) clone_ok extract_ok.

(** Revision lookups answer 403. *)
Definition rate_limited : env :=
  machine (fun _ => Response 403 None) clone_ok extract_ok.

(** [git] exits with 128 for every clone. *)
Definition clone_exits_128 : env :=
  machine (remote_with "abc123" (Response 404 None))
          (fun _ => Close (Some 128)) extract_ok.

(** [git] cannot be spawned for the [develop] clone. *)
Definition no_git_for_develop : env :=
  machine (remote_with "abc123" (Response 404 None))
          (fun args =>
             if existsb (String.eqb "develop") args
             then SpawnError "ENOENT" else Close (Some 0))
          extract_ok.

Definition disk : world :=
  {| dirs := [["repo"]; ["tmp"]]; files := []; log := [] |}.


(** The disk after an earlier run of [manifest_in_branch]. *)
Definition published : world :=
  {| dirs := [["repo"]; ["tmp"]; ["repo"; "dist"]; ["repo"; "dist"; "main"]];
     files := [(["repo"; "dist"; "main"; "r1.json"], "OLD MANIFEST");
               (["repo"; "dist"; "meta.json"], "OLD META")];
     log := [] |}.



(** A source whose Output Artifact lands in the workspace root. *)
Definition stray : Config :=
  with_sources [source "o" "../../../tmp/pkg-AbCdEf/x" "main"].


End Scenario.

(* ================================================================== *)
(** * Properties *)
(* ================================================================== *)

(** ** Association lists with distinct keys *)

Module AssocFacts.
Import Detector.

Lemma assoc_In {A} (l : list (string * A)) k v :
  assoc l k = Some v -> In (k, v) l.
Proof.
  induction l as [|[k' v'] l IH]; simpl; [discriminate|].
  destruct (String.eqb_spec k k') as [->|Hne].
  - intros [= ->]. now left.
  - intros H. right. now apply IH.
Qed.

Lemma assoc_None {A} (l : list (string * A)) k :
  assoc l k = None <-> ~ In k (keys l).
Proof.
  induction l as [|[k' v'] l IH]; simpl.
  - tauto.
  - destruct (String.eqb_spec k k') as [->|Hne].
    + split; [discriminate | intros H; exfalso; apply H; now left].
    + rewrite IH. split; intros H; [intros [E|E]; [congruence | tauto] | tauto].
Qed.

Lemma In_assoc {A} (l : list (string * A)) k v :
  NoDup (keys l) -> In (k, v) l -> assoc l k = Some v.
Proof.
  induction l as [|[k' v'] l IH]; simpl; [tauto|].
  intros Hnd [E|Hin].
  - injection E as -> ->. now rewrite String.eqb_refl.
  - inversion Hnd as [|? ? Hk Hnd']; subst.
    destruct (String.eqb_spec k k') as [->|Hne].
    + exfalso. apply Hk. change k' with (fst (k', v)). now apply in_map.
    + now apply IH.
Qed.

Lemma assoc_Some_key {A} (l : list (string * A)) k v :
  assoc l k = Some v -> In k (keys l).
Proof.
  intros H. apply assoc_In in H. change k with (fst (k, v)). now apply in_map.
Qed.

(** Pigeonhole on key lists: with as many distinct keys on both sides, keys
    of the first found in the second leave no key of the second over. *)
Lemma keys_incl_back {A B} (l1 : list (string * A)) (l2 : list (string * B)) :
  NoDup (keys l1) ->
  List.length l1 = List.length l2 ->
  incl (keys l1) (keys l2) ->
  incl (keys l2) (keys l1).
Proof.
  intros Hnd Hlen Hincl.
  apply NoDup_length_incl; trivial.
  unfold keys. rewrite !length_map. lia.
Qed.

Lemma In_keys {A} (l : list (string * A)) k :
  In k (keys l) <-> exists v, assoc l k = Some v.
Proof.
  split.
  - intros Hin. destruct (assoc l k) as [v|] eqn:E; eauto.
    apply assoc_None in E. tauto.
  - intros [v E]. eapply assoc_Some_key; eauto.
Qed.

End AssocFacts.

(** ** The Change Detector on Revision Manifests *)

Module DetectorFacts.
Import JS Detector AssocFacts.

(** [deepEqual] on an object, with its loop named. *)
Lemma deepEqual_object pa b :
  deepEqual (VObject pa) b =
  if negb (String.eqb "object" (typeof b)) then Normal false
  else n <- Object_keys b ;;
       if negb (Nat.eqb (List.length (map fst pa)) (List.length n))
       then Normal false
       else forKeys pa b.
Proof.
  simpl. destruct (negb _); trivial.
  destruct (Object_keys b) as [n|e]; simpl; trivial.
  destruct (negb _); trivial.
  induction pa as [|[k x] l IH]; simpl; trivial.
  destruct (get b k) as [y|e]; simpl; trivial.
  destruct (deepEqual x y) as [r|e]; simpl; trivial.
  destruct r; simpl; trivial.
Qed.

(** For an own key of an object with distinct keys, the value the loop
    holds is the one a property read returns: [x = a[k]]. *)
Lemma own_get (pa : props) k x :
  NoDup (map fst pa) -> In (k, x) pa -> get (VObject pa) k = Normal x.
Proof.
  intros Hnd Hin. simpl.
  assert (own pa k = Some x) as ->; trivial.
  induction pa as [|[k' v'] l IH]; simpl in *; [tauto|].
  inversion Hnd as [|? ? Hk Hnd']; subst.
  destruct Hin as [E|Hin].
  - injection E as -> ->. now rewrite String.eqb_refl.
  - destruct (String.eqb_spec k k') as [->|Hne]; [|now apply IH].
    exfalso. apply Hk. change k' with (fst (k', x)). now apply in_map.
Qed.

Lemma deepEqual_string s v :
  deepEqual (VString s) v =
  Normal (match v with VString t => String.eqb s t | _ => false end).
Proof.
  destruct v; simpl; trivial. now destruct (String.eqb s s0).
Qed.

Lemma inherited_not_string k : forall t, inherited k <> VString t.
Proof.
  intros t. unfold inherited.
  destruct (String.eqb k "__proto__"); [discriminate|].
  destruct (mem k prototype_methods); discriminate.
Qed.

Lemma own_branch (y : MetaBranch) k :
  own (map (fun p => (fst p, VString (snd p))) y) k =
  option_map VString (assoc y k).
Proof.
  induction y as [|[k' t] y IH]; simpl; trivial.
  destruct (String.eqb k k'); simpl; trivial.
Qed.

Lemma own_meta (B : Meta) k :
  own (map (fun p => (fst p, branch_value (snd p))) B) k =
  option_map branch_value (assoc B k).
Proof.
  induction B as [|[k' t] B IH]; simpl; trivial.
  destruct (String.eqb k k'); simpl; trivial.
Qed.

#[local] Arguments deepEqual : simpl never.
#[local] Arguments branch_value : simpl never.

Lemma forKeys_branch (x y : MetaBranch) :
  forKeys (map (fun p => (fst p, VString (snd p))) x) (branch_value y) =
  Normal (forallb (leaf_ok y) x).
Proof.
  induction x as [|[k s] x IH]; simpl; trivial.
  unfold branch_value at 1. cbn [get]. fold (branch_value y).
  rewrite own_branch. unfold leaf_ok at 1. simpl.
  destruct (assoc y k) as [t|]; simpl; rewrite deepEqual_string; simpl.
  - destruct (String.eqb s t); simpl; trivial.
  - pose proof (inherited_not_string k) as Hn.
    destruct (inherited k); simpl; trivial. now elim (Hn s0).
Qed.

Lemma deepEqual_branch (x y : MetaBranch) :
  deepEqual (branch_value x) (branch_value y) = Normal (branch_eqb x y).
Proof.
  unfold branch_value at 1. rewrite deepEqual_object.
  unfold branch_value. simpl.
  rewrite !length_map. unfold branch_eqb.
  destruct (Nat.eqb _ _); simpl; trivial.
  apply forKeys_branch.
Qed.

Lemma deepEqual_branch_inherited (x : MetaBranch) k :
  deepEqual (branch_value x) (inherited k) = Normal (inherited_eqb k x).
Proof.
  unfold branch_value. rewrite deepEqual_object.
  unfold inherited, inherited_eqb, proto_key.
  destruct (String.eqb k "__proto__").
  - simpl. rewrite !length_map. destruct x; simpl; trivial.
  - destruct (mem k prototype_methods); simpl; trivial.
Qed.

Lemma forKeys_meta (A B : Meta) :
  forKeys (map (fun p => (fst p, branch_value (snd p))) A) (meta_value B) =
  Normal (forallb (record_ok B) A).
Proof.
  induction A as [|[k x] A IH]; simpl; trivial.
  rewrite own_meta. unfold record_ok at 1. simpl.
  destruct (assoc B k) as [y|]; simpl.
  - rewrite deepEqual_branch. simpl. destruct (branch_eqb x y); simpl; trivial.
  - rewrite deepEqual_branch_inherited. simpl.
    destruct (inherited_eqb k x); simpl; trivial.
Qed.

(** [deepEqual] on two manifests is the boolean [meta_eqb]. *)
Lemma deepEqual_meta (A B : Meta) :
  deepEqual (meta_value A) (meta_value B) = Normal (meta_eqb A B).
Proof.
  unfold meta_value at 1. rewrite deepEqual_object. simpl.
  rewrite !length_map. unfold meta_eqb.
  destruct (Nat.eqb _ _); simpl; trivial.
  apply forKeys_meta.
Qed.

End DetectorFacts.

(** ** [deepEqual] against the extensional equality of manifests *)

Module DetectorSpec.
Import JS Detector AssocFacts DetectorFacts.

Lemma forallb_leaf_ok (x y : MetaBranch) :
  forallb (leaf_ok y) x = true <->
  (forall k s, In (k, s) x -> assoc y k = Some s).
Proof.
  rewrite forallb_forall. split.
  - intros H k s Hin. specialize (H _ Hin). unfold leaf_ok in H. simpl in H.
    destruct (assoc y k) as [t|]; [|discriminate].
    apply String.eqb_eq in H. now subst.
  - intros H [k s] Hin. unfold leaf_ok. simpl.
    rewrite (H _ _ Hin). apply String.eqb_refl.
Qed.

(** Two key lists without repetition and with the same members have the
    same length. *)
Lemma same_keys_length {A B} (l1 : list (string * A)) (l2 : list (string * B)) :
  NoDup (keys l1) -> NoDup (keys l2) ->
  (forall k, In k (keys l1) <-> In k (keys l2)) ->
  List.length l1 = List.length l2.
Proof.
  intros H1 H2 H.
  pose proof (Permutation_length (NoDup_Permutation H1 H2 H)) as E.
  unfold keys in E. now rewrite !length_map in E.
Qed.

Lemma branch_eqb_spec (x y : MetaBranch) :
  wf_branch x -> wf_branch y ->
  (branch_eqb x y = true <-> same_branch x y).
Proof.
  unfold wf_branch, branch_eqb, same_branch. intros Hx Hy.
  rewrite andb_true_iff, Nat.eqb_eq, forallb_leaf_ok. split.
  - intros [Hlen Hall] name.
    destruct (assoc x name) as [s|] eqn:E.
    + symmetry. apply Hall. now apply assoc_In.
    + symmetry. apply assoc_None. intros Hin.
      apply assoc_None in E. apply E.
      apply (keys_incl_back x y); trivial.
      intros k Hk. unfold keys in Hk. apply in_map_iff in Hk.
      destruct Hk as [[k' s] [<- Hin']]. simpl.
      eapply assoc_Some_key. eauto.
  - intros Hsame. split.
    + apply same_keys_length; trivial. intros k.
      rewrite !In_keys, Hsame. tauto.
    + intros k s Hin. rewrite <- Hsame. now apply In_assoc.
Qed.

Lemma wf_meta_lookup (A : Meta) k x :
  wf_meta A -> assoc A k = Some x -> wf_branch x.
Proof.
  intros [_ Hall] E. apply assoc_In in E.
  rewrite Forall_forall in Hall. apply (Hall _ E).
Qed.

Lemma inherited_eqb_true k x :
  inherited_eqb k x = true <-> k = proto_key /\ x = [].
Proof.
  unfold inherited_eqb. rewrite andb_true_iff, String.eqb_eq, Nat.eqb_eq.
  split; intros [H1 H2]; split; trivial; subst; trivial.
  now destruct x.
Qed.

(** Outside the [__proto__] configuration, [meta_eqb] decides [same_meta]. *)
Lemma meta_eqb_spec (A B : Meta) :
  wf_meta A -> wf_meta B -> ~ proto_trap A B ->
  (meta_eqb A B = true <-> same_meta A B).
Proof.
  intros HA HB Htrap. unfold meta_eqb.
  rewrite andb_true_iff, Nat.eqb_eq, forallb_forall.
  destruct HA as [HAk HAb], HB as [HBk HBb].
  assert (HA : wf_meta A) by now split.
  assert (HB : wf_meta B) by now split.
  split.
  - intros [Hlen Hall].
    assert (Hfound : forall k x, In (k, x) A ->
              exists y, assoc B k = Some y /\ same_branch x y).
    { intros k x Hin. specialize (Hall _ Hin). unfold record_ok in Hall.
      simpl in Hall. destruct (assoc B k) as [y|] eqn:E.
      - exists y. split; trivial. apply branch_eqb_spec; trivial.
        + rewrite Forall_forall in HAb. apply (HAb _ Hin).
        + eapply wf_meta_lookup; eauto.
      - exfalso. apply inherited_eqb_true in Hall as [-> ->].
        apply Htrap. split; trivial. now apply In_assoc. }
    intros branch. destruct (assoc A branch) as [x|] eqn:E.
    + destruct (Hfound _ _ (assoc_In _ _ _ E)) as [y [-> Hy]]. exact Hy.
    + destruct (assoc B branch) as [y|] eqn:E'; trivial.
      apply assoc_None in E. apply E.
      apply (keys_incl_back A B); trivial.
      * intros k Hk. unfold keys in Hk. apply in_map_iff in Hk.
        destruct Hk as [[k' x] [<- Hin']]. simpl.
        destruct (Hfound _ _ Hin') as [y' [Ey _]].
        eapply assoc_Some_key; eauto.
      * eapply assoc_Some_key; eauto.
  - intros Hsame. split.
    + apply same_keys_length; trivial. intros k.
      rewrite !In_keys. specialize (Hsame k).
      destruct (assoc A k), (assoc B k); try contradiction.
      * split; eauto.
      * split; intros [v Hv]; discriminate.
    + intros [k x] Hin. unfold record_ok. simpl.
      specialize (Hsame k). rewrite (In_assoc _ _ _ HAk Hin) in Hsame.
      destruct (assoc B k) as [y|] eqn:E; [|contradiction].
      apply branch_eqb_spec; trivial.
      * rewrite Forall_forall in HAb. apply (HAb _ Hin).
      * eapply wf_meta_lookup; eauto.
Qed.

(** On well-formed manifests outside the [__proto__] configuration,
    [deepEqual] answers [true] exactly on manifests with the same key sets at
    both levels and the same leaves. *)
Lemma deepEqual_same_meta (A B : Meta) :
  wf_meta A -> wf_meta B -> ~ proto_trap A B ->
  (deepEqual (meta_value A) (meta_value B) = Normal true <-> same_meta A B).
Proof.
  intros HA HB Ht. rewrite deepEqual_meta, <- (meta_eqb_spec A B HA HB Ht).
  split; [now intros [= ->] | now intros ->].
Qed.

(** The empty mapping against a manifest with at least one branch. *)
Lemma deepEqual_empty_nonempty (B : Meta) :
  B <> [] -> deepEqual (meta_value []) (meta_value B) = Normal false.
Proof.
  intros HB. rewrite deepEqual_meta. destruct B; [congruence | reflexivity].
Qed.

End DetectorSpec.

(** ** Claims on the Change Detector *)

Module DetectorClaims.
Import JS Detector AssocFacts DetectorFacts DetectorSpec.

(** C1.  [deepEqual] is meant to answer [true] exactly on manifests with the
    same key sets at both levels and the same leaves.  It does not at this
    input: the published manifest has the single branch key [__proto__]
    with an empty record, the resolved manifest has the single branch
    [master]; the key sets differ, yet the read [b["__proto__"]] finds
    [Object.prototype], an object without enumerable keys, and [deepEqual]
    answers [true].  (Off this configuration the claim holds:
    [DetectorSpec.deepEqual_same_meta].) *)
Theorem deepEqual_inherited_key_accepted :
  let A : Meta := [("__proto__", [])] in
  let B : Meta := [("master", [("docspace-plugin-sdk", "abc123")])] in
  wf_meta A /\ wf_meta B /\
  assoc A "master" = None /\ assoc B "master" <> None /\
  ~ same_meta A B /\
  deepEqual (meta_value A) (meta_value B) = Normal true.
Proof.
  cbv zeta.
  assert (Hone : forall k : string, NoDup [k]).
  { intros k. constructor; [simpl; tauto | constructor]. }
  split; [|split; [|split; [|split; [|split]]]].
  - split; [apply Hone | constructor; [constructor | constructor]].
  - split; [apply Hone | constructor; [apply Hone | constructor]].
  - reflexivity.
  - discriminate.
  - intros H. exact (H "master").
  - reflexivity.
Qed.

(** C10.  On two Revision Manifests [deepEqual] returns a boolean and does
    not throw, whereas a [null] argument passes the [typeof] test, reaches
    the object branch and makes [Object.keys] throw. *)
Theorem deepEqual_total_on_manifests :
  (forall A B : Meta,
      exists r : bool, deepEqual (meta_value A) (meta_value B) = Normal r) /\
  deepEqual VNull VNull = Throw TypeError /\
  (forall B : Meta, deepEqual VNull (meta_value B) = Throw TypeError) /\
  (forall A : Meta, deepEqual (meta_value A) VNull = Throw TypeError).
Proof.
  split; [|split; [|split]].
  - intros A B. exists (meta_eqb A B). apply deepEqual_meta.
  - reflexivity.
  - reflexivity.
  - intros A. unfold meta_value. now rewrite deepEqual_object.
Qed.

End DetectorClaims.

(** ** The resolution fan-out *)

Module OracleFacts.
Import JS Config Oracle.

Lemma install_all_fst st l :
  map fst (snd (install_all st l)) = l.
Proof.
  revert st. induction l as [|s l IH]; intros st; simpl; trivial.
  destruct (install st s) as [st1 b].
  specialize (IH st1). destruct (install_all st1 l) as [st2 bs].
  simpl in *. now rewrite IH.
Qed.

Lemma nth_error_task st l i s :
  nth_error l i = Some s ->
  exists b, nth_error (snd (install_all st l)) i = Some (s, b).
Proof.
  intros H. pose proof (install_all_fst st l) as E.
  rewrite <- E in H. rewrite nth_error_map in H.
  destruct (nth_error (snd (install_all st l)) i) as [[s' b]|]; [|discriminate].
  simpl in H. injection H as ->. now exists b.
Qed.

Lemma task_source st l i s b :
  nth_error (snd (install_all st l)) i = Some (s, b) -> In s l.
Proof.
  intros H. apply nth_error_In in H.
  rewrite <- (install_all_fst st l). change s with (fst (s, b)).
  now apply in_map.
Qed.

(** A rejected lookup whose answer is delivered rejects the fan-out, with
    the reason of the first rejected lookup delivered. *)
Lemma deliver_rejects fetch tasks order :
  forall settled st i s b e0,
    nth_error tasks i = Some (s, b) ->
    fetchSHA fetch s = Throw e0 ->
    In i order ->
    ~ In i settled ->
    exists j s' b' e,
      nth_error tasks j = Some (s', b') /\
      fetchSHA fetch s' = Throw e /\
      deliver fetch tasks order settled st = Settled (Throw e).
Proof.
  induction order as [|j order IH]; intros settled st i s b e0 Hi He Hin Hns.
  - destruct Hin.
  - simpl. destruct (existsb (Nat.eqb j) settled) eqn:Ej.
    + assert (i <> j) as Hne.
      { intros <-. apply Hns. apply existsb_exists in Ej as [x [Hx Hx']].
        apply Nat.eqb_eq in Hx'. now subst. }
      destruct Hin as [->|Hin]; [congruence|]. eapply IH; eauto.
    + destruct (nth_error tasks j) as [[s' b']|] eqn:Ej'.
      * destruct (fetchSHA fetch s') as [sha|e] eqn:Es'.
        -- assert (i <> j) as Hne by (intros <-; congruence).
           destruct Hin as [->|Hin]; [congruence|].
           apply (IH (j :: settled) _ i s b e0); trivial.
           intros [E|E]; [congruence | tauto].
        -- exists j, s', b', e. auto.
      * assert (i <> j) as Hne by (intros <-; congruence).
        destruct Hin as [->|Hin]; [congruence|]. eapply IH; eauto.
Qed.

Lemma fetchLatestMeta_rejects fetch order c i s e0 :
  nth_error (sources c) i = Some s ->
  fetchSHA fetch s = Throw e0 ->
  In i order ->
  exists s' e,
    In s' (sources c) /\ fetchSHA fetch s' = Throw e /\
    fetchLatestMeta fetch order c = Settled (Throw e).
Proof.
  intros Hi He Hin. unfold fetchLatestMeta.
  destruct (nth_error_task {| m := []; elsewhere := [] |} _ _ _ Hi) as [b Hb].
  pose proof (task_source {| m := []; elsewhere := [] |} (sources c)) as Hsrc.
  destruct (install_all _ (sources c)) as [st tasks]. simpl in *.
  destruct (deliver_rejects fetch tasks order [] st i s b e0 Hb He Hin)
    as [j [s' [b' [e [Hj [He' Hd]]]]]]; [tauto|].
  exists s', e. rewrite Hd. repeat split; trivial. eapply Hsrc; eauto.
Qed.

Lemma fetchSHA_status fetch s status body :
  fetch (sha_url s) = Response status body ->
  status <> 200 ->
  fetchSHA fetch s =
  Throw (Error ("Failed to fetch commit SHA for " ++ s_name s)).
Proof.
  intros E Hs. unfold fetchSHA. rewrite E.
  apply Nat.eqb_neq in Hs. now rewrite Hs.
Qed.

End OracleFacts.

(** ** Claims on resolution and on change detection *)

Module ResolutionClaims.
Import JS Config Oracle Sys Pipeline Detector OracleFacts Scenario.

(** C2.  In the change-detection variant, when the resolved manifest and
    the published one are equal under [deepEqual], [build] does one thing:
    it prints the informational line [No updates].  The directories and
    files are as before, the log gains that line and no [mkdir], [mkdtemp],
    [spawn], extractor or [writeFile] call, and the promise of [build] is
    fulfilled. *)
Theorem build_no_updates E order sched c w latest current :
  fetchLatestMeta (fetch E) order c = Settled (Normal latest) ->
  fetchCurrentMeta (fetch E) c = Normal current ->
  deepEqual current latest = Normal true ->
  build E order sched c w =
  ({| dirs := dirs w; files := files w;
      log := log w ++ [(stdout_line "info: No updates", true)] |},
   Settled (Normal tt)).
Proof.
  intros Hl Hc Heq. unfold build. now rewrite Hl, Hc, Heq.
Qed.

Lemma build_no_updates_witness :
  build unchanged [0] [0; 0; 0; 0; 0] one disk =
  ({| dirs := dirs disk; files := files disk;
      log := log disk ++ [(stdout_line "info: No updates", true)] |},
   Settled (Normal tt)).
Proof.
  apply (build_no_updates unchanged [0] [0; 0; 0; 0; 0] one disk
           (VObject [("main", VObject [("r1", VString "abc123")])])
           (VObject [("main", VObject [("r1", VString "abc123")])]));
    reflexivity.
Defined.

(** C6.  A revision lookup answered with a status other than 200 makes
    [fetchSHA] throw an error whose message ends with the repository name.
    Once that answer is delivered the resolution fan-out rejects with the
    reason of a rejected lookup, and [build] rejects with it in the state it
    started in: nothing was logged, so no clone, no Output Artifact and no
    manifest write.  The same holds for the [build] of makefile.js. *)
Theorem lookup_failure_aborts_before_any_effect
    E order sched c w i s status body :
  nth_error (sources c) i = Some s ->
  In i order ->
  fetch E (sha_url s) = Response status body ->
  status <> 200 ->
  fetchSHA (fetch E) s =
    Throw (Error ("Failed to fetch commit SHA for " ++ s_name s)) /\
  exists s' e,
    In s' (sources c) /\ fetchSHA (fetch E) s' = Throw e /\
    build E order sched c w = (w, Settled (Throw e)) /\
    build_always E order sched c w = (w, Settled (Throw e)).
Proof.
  intros Hi Hin Hr Hs.
  pose proof (fetchSHA_status _ _ _ _ Hr Hs) as Hf. split; trivial.
  destruct (fetchLatestMeta_rejects _ order c i s _ Hi Hf Hin)
    as [s' [e [Hs' [He Hl]]]].
  exists s', e. unfold build, build_always. now rewrite Hl.
Qed.

Lemma lookup_failure_aborts_witness :
  fetchSHA (fetch rate_limited) (source "o" "r1" "main") =
    Throw (Error "Failed to fetch commit SHA for r1") /\
  exists s' e,
    In s' (sources one) /\ fetchSHA (fetch rate_limited) s' = Throw e /\
    build rate_limited [0] [0] one disk = (disk, Settled (Throw e)) /\
    build_always rate_limited [0] [0] one disk = (disk, Settled (Throw e)).
Proof.
  apply (lookup_failure_aborts_before_any_effect
           rate_limited [0] [0] one disk 0 (source "o" "r1" "main") 403 None).
  - reflexivity.
  - simpl. lia.
  - reflexivity.
  - lia.
Defined.

(** C7, as stated, fails: the manifest URL answers 200 with a body that is
    not JSON, [fetchCurrentMeta] rejects and the run is aborted. *)
Lemma fetchCurrentMeta_can_fail_the_run :
  fetch garbled (meta_url one) = Response 200 None /\
  fetchCurrentMeta (fetch garbled) one = Throw SyntaxError /\
  build garbled [0] [0; 0; 0; 0; 0] one disk = (disk, Settled (Throw SyntaxError)).
Proof.
  repeat split.
Qed.

(** C7, amended.  Whenever the remote answers, [fetchCurrentMeta] returns
    the parsed body on status 200 with a JSON body and the empty mapping,
    without an error, on every other status; it rejects only when the
    request itself fails or a 200 body is not JSON. *)
Theorem fetchCurrentMeta_by_status (f : remote) (c : Config) :
  (forall status body,
      f (meta_url c) = Response status body -> status <> 200 ->
      fetchCurrentMeta f c = Normal (VObject [])) /\
  (forall j,
      f (meta_url c) = Response 200 (Some j) ->
      fetchCurrentMeta f c = Normal j) /\
  (forall e,
      fetchCurrentMeta f c = Throw e ->
      (f (meta_url c) = Unreachable /\ e = NetworkError) \/
      (f (meta_url c) = Response 200 None /\ e = SyntaxError)).
Proof.
  unfold fetchCurrentMeta. split; [|split].
  - intros status body E Hs. rewrite E.
    apply Nat.eqb_neq in Hs. now rewrite Hs.
  - intros j E. now rewrite E.
  - intros e. destruct (f (meta_url c)) as [|status body]; [intros [= <-]; auto|].
    destruct (Nat.eqb_spec status 200) as [->|Hne]; simpl; [|discriminate].
    destruct body; simpl; [discriminate | intros [= <-]; auto].
Qed.

Lemma fetchCurrentMeta_by_status_witness :
  fetchCurrentMeta (fetch first_run) one = Normal (VObject []) /\
  fetchCurrentMeta (fetch unchanged) one =
    Normal (VObject [("main", VObject [("r1", VString "abc123")])]).
Proof.
  split.
  - apply (proj1 (fetchCurrentMeta_by_status (fetch first_run) one) 404 None).
    + reflexivity.
    + lia.
  - apply (proj1 (proj2 (fetchCurrentMeta_by_status (fetch unchanged) one))).
    reflexivity.
Defined.

End ResolutionClaims.

(** ** Property assignment *)

Module JSFacts.
Import JS.

Lemma own_replace_own ps k v k' :
  own (replace_own ps k v) k' =
  if String.eqb k' k
  then match own ps k with Some _ => Some v | None => None end
  else own ps k'.
Proof.
  induction ps as [|[k0 v0] ps IH]; simpl.
  - now destruct (String.eqb k' k).
  - destruct (String.eqb_spec k k0) as [->|Hne]; simpl.
    + destruct (String.eqb k' k0); trivial.
    + rewrite IH. destruct (String.eqb_spec k' k0) as [->|Hne'].
      * destruct (String.eqb_spec k0 k) as [->|]; [congruence | trivial].
      * trivial.
Qed.

Lemma own_insert_index ps n k v k' :
  own ps k = None ->
  own (insert_index ps n k v) k' =
  if String.eqb k' k then Some v else own ps k'.
Proof.
  induction ps as [|[k0 v0] ps IH]; simpl; trivial.
  destruct (String.eqb_spec k k0) as [->|Hne]; [discriminate|]. intros Hk.
  destruct (array_index k0) as [n0|]; [destruct (N.ltb n0 n)|]; simpl; trivial.
  rewrite (IH Hk).
  destruct (String.eqb_spec k' k0) as [->|Hne'].
  - destruct (String.eqb_spec k0 k) as [->|]; [congruence | trivial].
  - trivial.
Qed.

Lemma own_app ps k v k' :
  own ps k = None ->
  own (ps ++ [(k, v)]) k' = if String.eqb k' k then Some v else own ps k'.
Proof.
  induction ps as [|[k0 v0] ps IH]; simpl.
  - now destruct (String.eqb k' k).
  - destruct (String.eqb_spec k k0) as [->|Hne]; [discriminate|]. intros Hk.
    rewrite (IH Hk).
    destruct (String.eqb_spec k' k0) as [->|Hne'].
    + destruct (String.eqb_spec k0 k) as [->|]; [congruence | trivial].
    + trivial.
Qed.

(** A read of an own property after an assignment to a key other than
    [__proto__]. *)
Lemma own_set ps k v k' :
  k <> "__proto__" ->
  own (set ps k v) k' = if String.eqb k' k then Some v else own ps k'.
Proof.
  intros Hk. unfold set. apply String.eqb_neq in Hk. rewrite Hk.
  destruct (own ps k) as [x|] eqn:E.
  - rewrite own_replace_own, E. trivial.
  - destruct (array_index k); [now apply own_insert_index | now apply own_app].
Qed.

Lemma keys_replace_own ps k v :
  map fst (replace_own ps k v) = map fst ps.
Proof.
  induction ps as [|[k0 v0] ps IH]; simpl; trivial.
  destruct (String.eqb k k0); simpl; [trivial | now rewrite IH].
Qed.

Lemma keys_insert_index ps n k v :
  Permutation (map fst (insert_index ps n k v)) (k :: map fst ps).
Proof.
  induction ps as [|[k0 v0] ps IH]; simpl; trivial.
  destruct (array_index k0) as [n0|]; [destruct (N.ltb n0 n)|]; simpl; trivial.
  rewrite IH. apply perm_swap.
Qed.

Lemma own_None_keys ps k : own ps k = None <-> ~ In k (map fst ps).
Proof.
  induction ps as [|[k0 v0] ps IH]; simpl.
  - tauto.
  - destruct (String.eqb_spec k k0) as [->|Hne].
    + split; [discriminate | intros H; exfalso; apply H; now left].
    + rewrite IH. split; intros H; [intros [E|E]; [congruence | tauto] | tauto].
Qed.

(** Assignment keeps the own keys distinct. *)
Lemma NoDup_keys_set ps k v :
  NoDup (map fst ps) -> NoDup (map fst (set ps k v)).
Proof.
  intros Hnd. unfold set. destruct (String.eqb k "__proto__"); trivial.
  destruct (own ps k) as [x|] eqn:E.
  - now rewrite keys_replace_own.
  - apply own_None_keys in E.
    assert (NoDup (k :: map fst ps)) as Hk by now constructor.
    destruct (array_index k).
    + eapply Permutation_NoDup; [symmetry; apply keys_insert_index | trivial].
    + rewrite map_app. simpl.
      eapply Permutation_NoDup; [|exact Hk]. apply Permutation_cons_append.
Qed.

End JSFacts.

(** ** [fetchLatestMeta] builds one record per branch *)

Module MetaFacts.
Import JS Config Oracle JSFacts OracleFacts.

Lemma ordinary_branch_not_proto k : inherited k = VUndefined -> k <> "__proto__".
Proof.
  intros H ->. discriminate H.
Qed.

(** The synchronous phase on ordinary branches: every callback keeps a
    reference to the own record of its branch, and [m] holds one empty
    record per branch. *)
Lemma install_all_ordinary l :
  forall st,
    (forall s, In s l -> inherited (s_branch s) = VUndefined) ->
    (forall k v, own (m st) k = Some v -> v = VObject []) ->
    NoDup (map fst (m st)) ->
    let st' := fst (install_all st l) in
    snd (install_all st l) = map (fun s => (s, Own (s_branch s))) l /\
    (forall k, In k (map s_branch l) -> own (m st') k = Some (VObject [])) /\
    (forall k, ~ In k (map s_branch l) -> own (m st') k = own (m st) k) /\
    NoDup (map fst (m st')).
Proof.
  induction l as [|s l IH]; intros st Hord Hrec Hnd; simpl.
  - repeat split; trivial. tauto.
  - assert (Hs : inherited (s_branch s) = VUndefined) by (apply Hord; now left).
    pose proof (ordinary_branch_not_proto _ Hs) as Hnp.
    assert (Hi : exists st1,
               install st s = (st1, Own (s_branch s)) /\
               own (m st1) (s_branch s) = Some (VObject []) /\
               (forall k, k <> s_branch s -> own (m st1) k = own (m st) k) /\
               (forall k v, own (m st1) k = Some v -> v = VObject []) /\
               NoDup (map fst (m st1))).
    { unfold install. destruct (own (m st) (s_branch s)) as [v|] eqn:E.
      - pose proof (Hrec _ _ E) as ->. exists st. repeat split; auto.
      - rewrite Hs. eexists. split; [reflexivity|]. simpl.
        repeat split.
        + rewrite own_set by trivial. now rewrite String.eqb_refl.
        + intros k Hk. rewrite own_set by trivial.
          apply String.eqb_neq in Hk. now rewrite Hk.
        + intros k v. rewrite own_set by trivial.
          destruct (String.eqb k (s_branch s)); [now intros [= <-] | apply Hrec].
        + now apply NoDup_keys_set. }
    destruct Hi as [st1 [E1 [Hown [Hother [Hrec1 Hnd1]]]]]. rewrite E1.
    specialize (IH st1 (fun s' H => Hord s' (or_intror H)) Hrec1 Hnd1).
    destruct (install_all st1 l) as [st2 bs]. simpl in *.
    destruct IH as [Hbs [Hin [Hout Hnd2]]]. subst bs.
    repeat split; trivial.
    + intros k [<-|Hk].
      * destruct (in_dec string_dec (s_branch s) (map s_branch l)) as [Hi|Hi].
        -- now apply Hin.
        -- now rewrite Hout.
      * now apply Hin.
    + intros k Hk. rewrite Hout by tauto. apply Hother. intros ->. tauto.
Qed.

Lemma cell_assign ps br r nm v br' nm' :
  own ps br = Some (VObject r) ->
  nm <> "__proto__" ->
  cell (replace_own ps br (VObject (set r nm v))) br' nm' =
  if String.eqb br' br && String.eqb nm' nm then Some v else cell ps br' nm'.
Proof.
  intros Hr Hnm. unfold cell. rewrite own_replace_own.
  destruct (String.eqb_spec br' br) as [->|Hne]; simpl; trivial.
  rewrite Hr, own_set by trivial.
  now destruct (String.eqb nm' nm).
Qed.

(** Two positions of a list of sources with distinct slots that hold the
    same slot are the same position. *)
Lemma same_slot_same_position l i j s s' :
  NoDup (map slot l) ->
  nth_error l i = Some s -> nth_error l j = Some s' -> slot s = slot s' ->
  i = j.
Proof.
  intros Hnd Hi Hj E.
  rewrite NoDup_nth_error in Hnd. apply Hnd.
  - rewrite length_map. apply nth_error_Some. congruence.
  - rewrite !nth_error_map, Hi, Hj. simpl. congruence.
Qed.

(** One fulfilled lookup writes its revision into its own slot and leaves
    the rest of [m] as it is. *)
Lemma resolved_assign fetch l settled st j s v :
  resolved_upto fetch l settled (m st) ->
  NoDup (map slot l) ->
  nth_error l j = Some s ->
  ~ In j settled ->
  ordinary s ->
  fetchSHA fetch s = Normal v ->
  resolved_upto fetch l (j :: settled)
    (m (assign st (Own (s_branch s)) (s_name s) v)).
Proof.
  intros (J1 & J2 & J3 & J4 & J5) Hnd Hj Hnew [Hbr Hnm] Hv.
  assert (Hin : In (s_branch s) (map s_branch l)).
  { apply in_map. eapply nth_error_In; eauto. }
  destruct (J1 _ Hin) as [r Hr].
  unfold assign. rewrite Hr. simpl.
  split; [|split; [|split; [|split]]].
  - intros br Hb. rewrite own_replace_own.
    destruct (String.eqb br (s_branch s)); [rewrite Hr; eauto | auto].
  - intros br Hb. rewrite own_replace_own.
    destruct (String.eqb_spec br (s_branch s)) as [->|Hne]; [tauto | auto].
  - intros br nm v'. rewrite (cell_assign _ _ _ _ _ _ _ Hr Hnm).
    destruct (String.eqb_spec br (s_branch s)) as [->|Hne1];
      [destruct (String.eqb_spec nm (s_name s)) as [->|Hne2]|]; simpl.
    + split.
      * intros [= <-]. exists j, s. repeat split; auto with datatypes.
      * intros [i [s' [[<-|Hi] [Hs' [Hslot Hv']]]]].
        -- congruence.
        -- assert (i = j) by (eapply same_slot_same_position; eauto).
           subst. tauto.
    + rewrite J3. split.
      * intros [i [s' [Hi H]]]. exists i, s'. split; [now right | exact H].
      * intros [i [s' [[<-|Hi] [Hs' [Hslot Hv']]]]].
        -- rewrite Hj in Hs'. injection Hs' as <-.
           unfold slot in Hslot. congruence.
        -- exists i, s'. auto.
    + rewrite J3. split.
      * intros [i [s' [Hi H]]]. exists i, s'. split; [now right | exact H].
      * intros [i [s' [[<-|Hi] [Hs' [Hslot Hv']]]]].
        -- rewrite Hj in Hs'. injection Hs' as <-.
           unfold slot in Hslot. congruence.
        -- exists i, s'. auto.
  - now rewrite keys_replace_own.
  - intros br r0. rewrite own_replace_own.
    destruct (String.eqb br (s_branch s)).
    + rewrite Hr. intros [= <-]. apply NoDup_keys_set. eapply J5; eauto.
    + apply J5.
Qed.

Lemma existsb_eqb_In i l : existsb (Nat.eqb i) l = true <-> In i l.
Proof.
  rewrite existsb_exists. split.
  - intros [x [Hx E]]. apply Nat.eqb_eq in E. now subst.
  - intros H. exists i. split; [trivial | apply Nat.eqb_refl].
Qed.

(** Positions without repetition that cover [0 .. n-1] and stay below [n]
    are [n] positions. *)
Lemma all_settled_length (settled : list nat) n :
  NoDup settled ->
  (forall i, In i settled -> i < n) ->
  (forall i, i < n -> In i settled) ->
  List.length settled = n.
Proof.
  intros Hnd Hlt Hall.
  transitivity (List.length (seq 0 n)); [|apply length_seq].
  apply Permutation_length.
  apply NoDup_Permutation; trivial; [apply seq_NoDup|].
  intros i. rewrite in_seq. split; intros H.
  - specialize (Hlt _ H). lia.
  - apply Hall. lia.
Qed.

(** When every lookup is fulfilled and every answer is delivered, the
    fan-out resolves, whatever the order of the answers. *)
Lemma deliver_fulfils fetch l order :
  NoDup (map slot l) ->
  (forall s, In s l -> ordinary s) ->
  (forall s, In s l -> exists v, fetchSHA fetch s = Normal v) ->
  forall settled st,
    resolved_upto fetch l settled (m st) ->
    NoDup settled ->
    (forall i, In i settled -> i < List.length l) ->
    (forall i, i < List.length l -> In i order \/ In i settled) ->
    exists st' settled',
      deliver fetch (map (fun s => (s, Own (s_branch s))) l) order settled st
      = Settled (Normal st') /\
      resolved_upto fetch l settled' (m st') /\
      (forall i, i < List.length l -> In i settled').
Proof.
  intros Hslots Hord Hok.
  induction order as [|j order IH]; intros settled st HJ Hnd Hlt Hcov.
  - simpl. rewrite length_map.
    assert (Hall : forall i, i < List.length l -> In i settled).
    { intros i Hi. destruct (Hcov i Hi) as [[]|]; trivial. }
    rewrite (all_settled_length settled _ Hnd Hlt Hall), Nat.eqb_refl.
    exists st, settled. auto.
  - simpl. destruct (existsb (Nat.eqb j) settled) eqn:Ej.
    + apply existsb_eqb_In in Ej. apply IH; trivial.
      intros i Hi. destruct (Hcov i Hi) as [[<-|H]|H]; auto.
    + assert (Hnew : ~ In j settled).
      { intros H. apply existsb_eqb_In in H. congruence. }
      rewrite nth_error_map.
      destruct (nth_error l j) as [s|] eqn:Es; simpl.
      * assert (Hin : In s l) by (eapply nth_error_In; eauto).
        destruct (Hok s Hin) as [v Hv]. rewrite Hv.
        apply IH.
        -- apply resolved_assign; auto.
        -- now constructor.
        -- intros i [<-|Hi]; [|auto]. apply nth_error_Some. congruence.
        -- intros i Hi. destruct (Hcov i Hi) as [[<-|H]|H]; simpl; auto.
      * apply IH; trivial.
        intros i Hi. destruct (Hcov i Hi) as [[<-|H]|H]; auto.
        apply nth_error_None in Es. lia.
Qed.

(** [fetchLatestMeta] on ordinary sources with distinct slots. *)
Lemma fetchLatestMeta_resolves fetch order (c : Config) :
  NoDup (map slot (sources c)) ->
  (forall s, In s (sources c) -> ordinary s) ->
  (forall s, In s (sources c) -> exists v, fetchSHA fetch s = Normal v) ->
  (forall i, i < List.length (sources c) -> In i order) ->
  exists ps settled,
    fetchLatestMeta fetch order c = Settled (Normal (VObject ps)) /\
    resolved_upto fetch (sources c) settled ps /\
    (forall i, i < List.length (sources c) -> In i settled).
Proof.
  intros Hslots Hord Hok Hcov. unfold fetchLatestMeta.
  pose proof (install_all_ordinary (sources c) {| m := []; elsewhere := [] |})
    as H0. simpl in H0.
  destruct H0 as [Ht [Hin [Hout Hnd]]].
  - intros s Hs. now apply Hord.
  - discriminate.
  - constructor.
  - destruct (install_all _ (sources c)) as [st0 tasks]. simpl in *. subst tasks.
    destruct (deliver_fulfils fetch (sources c) order Hslots Hord Hok [] st0)
      as [st' [settled' [Hd [HJ Hall]]]].
    + split; [|split; [|split; [|split]]]; trivial.
      * intros br Hb. rewrite (Hin _ Hb). eauto.
      * intros br nm v. unfold cell. split.
        -- destruct (in_dec string_dec br (map s_branch (sources c))) as [Hb|Hb].
           ++ rewrite (Hin _ Hb). discriminate.
           ++ rewrite (Hout _ Hb). discriminate.
        -- intros [i [s [[] _]]].
      * intros br r.
        destruct (in_dec string_dec br (map s_branch (sources c))) as [Hb|Hb].
        -- rewrite (Hin _ Hb). intros [= <-]. constructor.
        -- rewrite (Hout _ Hb). discriminate.
    + constructor.
    + intros i [].
    + intros i Hi. left. auto.
    + rewrite Hd. exists (m st'), settled'. auto.
Qed.




End MetaFacts.

(** ** Claims on the resolved manifest *)

Module MetaClaims.
Import JS Config Oracle Sys JSFacts OracleFacts MetaFacts Scenario.

(** C9, as stated, fails: two descriptors that differ in their owner only
    share the slot [main][r]; both lookups succeed, with revisions [a1] and
    [b2], and the manifest has the single entry [main][r], which holds the
    revision delivered last and not the revision of the first descriptor. *)
Lemma fetchLatestMeta_shared_slot_overwritten :
  In (source "o1" "r" "main") (sources forks) /\
  fetchSHA remote_by_owner (source "o1" "r" "main") = Normal (VString "a1") /\
  fetchSHA remote_by_owner (source "o2" "r" "main") = Normal (VString "b2") /\
  fetchLatestMeta remote_by_owner [0; 1] forks =
    Settled (Normal (VObject [("main", VObject [("r", VString "b2")])])) /\
  cell [("main", VObject [("r", VString "b2")])] "main" "r"
    <> Some (VString "a1").
Proof.
  split; [now left|]. split; [reflexivity|]. split; [reflexivity|].
  split; [reflexivity | discriminate].
Qed.

(** C9, amended.  For every configuration whose descriptors have pairwise
    distinct (branch, repository name) pairs, none of whose branches names a
    property of [Object.prototype] and none of whose repository names is
    [__proto__], and whose lookups all succeed and are all answered:
    [fetchLatestMeta] returns a manifest in which the entry at
    [branch][repositoryName] of every descriptor holds its resolved
    revision, every entry is the entry of some descriptor, every branch key
    is the branch of some descriptor and holds a record, and no key is
    repeated at either level; descriptors that share a branch share its
    record. *)
Theorem fetchLatestMeta_one_entry_per_source fetch order (c : Config) :
  NoDup (map slot (sources c)) ->
  (forall s, In s (sources c) -> ordinary s) ->
  (forall s, In s (sources c) -> exists v, fetchSHA fetch s = Normal v) ->
  (forall i, i < List.length (sources c) -> In i order) ->
  exists ps,
    fetchLatestMeta fetch order c = Settled (Normal (VObject ps)) /\
    (forall s v, In s (sources c) -> fetchSHA fetch s = Normal v ->
                 cell ps (s_branch s) (s_name s) = Some v) /\
    (forall br nm v, cell ps br nm = Some v ->
                     exists s, In s (sources c) /\ slot s = (br, nm) /\
                               fetchSHA fetch s = Normal v) /\
    (forall br x, own ps br = Some x ->
                  In br (map s_branch (sources c)) /\
                  exists r, x = VObject r /\ NoDup (map fst r)) /\
    NoDup (map fst ps).
Proof.
  intros Hslots Hord Hok Hcov.
  destruct (fetchLatestMeta_resolves fetch order c Hslots Hord Hok Hcov)
    as [ps [settled [Hf [(J1 & J2 & J3 & J4 & J5) Hall]]]].
  exists ps. split; [exact Hf|]. split; [|split; [|split]]; trivial.
  - intros s v Hs Hv. apply J3.
    destruct (In_nth_error _ _ Hs) as [i Hi].
    exists i, s. repeat split; trivial.
    apply Hall. apply nth_error_Some. congruence.
  - intros br nm v Hc. apply J3 in Hc as [i [s [_ [Hi [Hslot Hv]]]]].
    exists s. repeat split; trivial. eapply nth_error_In; eauto.
  - intros br x Hx.
    destruct (in_dec string_dec br (map s_branch (sources c))) as [Hb|Hb].
    + split; trivial. destruct (J1 _ Hb) as [r Hr].
      exists r. split; [congruence | eapply J5; eauto].
    + rewrite (J2 _ Hb) in Hx. discriminate.
Qed.

Lemma fetchLatestMeta_one_entry_witness :
  exists ps,
    fetchLatestMeta (fetch first_run) [1; 0] two = Settled (Normal (VObject ps)) /\
    (forall s v, In s (sources two) -> fetchSHA (fetch first_run) s = Normal v ->
                 cell ps (s_branch s) (s_name s) = Some v) /\
    (forall br nm v, cell ps br nm = Some v ->
                     exists s, In s (sources two) /\ slot s = (br, nm) /\
                               fetchSHA (fetch first_run) s = Normal v) /\
    (forall br x, own ps br = Some x ->
                  In br (map s_branch (sources two)) /\
                  exists r, x = VObject r /\ NoDup (map fst r)) /\
    NoDup (map fst ps).
Proof.
  apply (fetchLatestMeta_one_entry_per_source (fetch first_run) [1; 0] two).
  - simpl. constructor; [|constructor; [|constructor]]; simpl.
    + intros [H|[]]. discriminate H.
    + tauto.
  - intros s [<-|[<-|[]]]; (split; [reflexivity | discriminate]).
  - intros s [<-|[<-|[]]]; eexists; reflexivity.
  - simpl. intros i Hi. lia.
Defined.

End MetaClaims.

(** ** The calls of the pipeline and its log *)

Module PipelineFacts.
Import JS Config Oracle Sys Pipeline.

Lemma create_dir_log c E p w w' r :
  create_dir c E p w = (w', r) -> log w' = log w ++ [(c, is_normal r)].
Proof.
  unfold create_dir, fail.
  destruct (denied E p); [intros [= <- <-]; reflexivity|].
  destruct (existsSync w p); [intros [= <- <-]; reflexivity|].
  destruct (negb _); intros [= <- <-]; reflexivity.
Qed.

Lemma store_log c E f text w w' r :
  store c E f text w = (w', r) -> log w' = log w ++ [(c, is_normal r)].
Proof.
  unfold store, fail.
  destruct (denied E f); [intros [= <- <-]; reflexivity|].
  destruct (is_dir w f); [intros [= <- <-]; reflexivity|].
  destruct (negb _); intros [= <- <-]; reflexivity.
Qed.

Lemma store_deep_log c E f text w w' r :
  store_deep c E f text w = (w', r) -> log w' = log w ++ [(c, is_normal r)].
Proof.
  unfold store_deep, fail.
  destruct (existsb (is_file w) (ancestors f)); [intros [= <- <-]; reflexivity|].
  destruct (existsb (denied E) _); [intros [= <- <-]; reflexivity|].
  destruct (denied E f); [intros [= <- <-]; reflexivity|].
  destruct (is_dir w f); intros [= <- <-]; reflexivity.
Qed.

Lemma rm_log E p w w' r :
  rm E p w = (w', r) -> log w' = log w ++ [(fs_rm p, is_normal r)].
Proof.
  unfold rm, fail. destruct (denied E p); intros [= <- <-]; reflexivity.
Qed.

Lemma rmdir_log E p w w' r :
  rmdir E p w = (w', r) -> log w' = log w ++ [(fs_rmdir p, is_normal r)].
Proof.
  unfold rmdir, fail.
  destruct (denied E p); [intros [= <- <-]; reflexivity|].
  destruct (negb _); [intros [= <- <-]; reflexivity|].
  destruct (has_entries w p); intros [= <- <-]; reflexivity.
Qed.

Lemma cloneRepo_log E d s w w' r :
  cloneRepo E d s w = (w', r) ->
  log w' = log w ++ [(spawn "git" (clone_args d s), is_normal r)].
Proof.
  unfold cloneRepo. destruct (git E (clone_args d s)) as [code|code].
  - intros [= <- <-]. reflexivity.
  - intros [= <- <-]. simpl.
    destruct code as [[|n]|]; trivial.
    destruct (is_dir w d && negb (existsSync w (d ++ [".git"]))); trivial.
Qed.

(** [cloneRepo] settles by the event of the child process alone. *)
Lemma cloneRepo_result E d s w :
  snd (cloneRepo E d s w) =
  match git E (clone_args d s) with
  | SpawnError code => Throw (SystemError code)
  | Close _ => Normal tt
  end.
Proof.
  unfold cloneRepo. now destruct (git E (clone_args d s)).
Qed.

Lemma next_rejected r k :
  is_rejected k = false -> is_rejected (next r k) = negb (is_normal r).
Proof.
  destruct r; simpl; auto.
Qed.

(** What one resumption appends to the log. *)
Lemma resume_log E td dd s g w w' g' :
  resume E td dd s g w = (w', g') ->
  log w' = log w ++ emitted E td dd s g (negb (is_rejected g')).
Proof.
  destruct g; simpl.
  - destruct (mkdir E (st_of td s) w) as [w1 r] eqn:Eq. intros [= <- <-].
    rewrite next_rejected, negb_involutive by trivial.
    now apply create_dir_log in Eq.
  - destruct (cloneRepo E (st_of td s) s w) as [w1 r] eqn:Eq. intros [= <- <-].
    rewrite next_rejected, negb_involutive
      by now destruct (negb (existsSync w1 (sd_of dd s))).
    now apply cloneRepo_log in Eq.
  - destruct (mkdir E (sd_of dd s) w) as [w1 r] eqn:Eq. intros [= <- <-].
    rewrite next_rejected, negb_involutive by trivial.
    now apply create_dir_log in Eq.
  - destruct (generateJSON E _ _ _ w) as [w1 r] eqn:Eq. intros [= <- <-].
    rewrite next_rejected, negb_involutive by trivial.
    unfold generateJSON in Eq.
    destruct (typedoc E (entry_of td s) (tsconfigFile (st_of td s))).
    + now injection Eq as <- <-.
    + now injection Eq as <- <-.
    + apply store_deep_log in Eq. rewrite Eq. simpl. now rewrite <- app_assoc.
  - destruct (rf E (st_of td s) w) as [w1 r] eqn:Eq. intros [= <- <-].
    rewrite next_rejected, negb_involutive by trivial.
    now apply rm_log in Eq.
  - intros [= <- <-]. now rewrite app_nil_r.
  - intros [= <- <-]. now rewrite app_nil_r.
Qed.

(** Where one resumption leads. *)
Lemma resume_follows E td dd s g w w' g' :
  resume E td dd s g w = (w', g') ->
  is_rejected g' = false -> follows g g'.
Proof.
  destruct g; simpl.
  - destruct (mkdir E (st_of td s) w) as [w1 [[]|e]]; intros [= <- <-];
      simpl; [trivial | discriminate].
  - destruct (cloneRepo E (st_of td s) s w) as [w1 [[]|e]]; intros [= <- <-];
      simpl; [|discriminate].
    destruct (negb (existsSync w1 (sd_of dd s))); auto.
  - destruct (mkdir E (sd_of dd s) w) as [w1 [[]|e]]; intros [= <- <-];
      simpl; [trivial | discriminate].
  - destruct (generateJSON E _ _ _ w) as [w1 [[]|e]]; intros [= <- <-];
      simpl; [trivial | discriminate].
  - destruct (rf E (st_of td s) w) as [w1 [[]|e]]; intros [= <- <-];
      simpl; [trivial | discriminate].
  - intros [= <- <-]. trivial.
  - intros [= <- <-]. discriminate.
Qed.

Lemma resume_nth_spec E td dd i :
  forall l w w' l' r,
    resume_nth E td dd i l w = (w', l', r) ->
    (nth_error l i = None /\ w' = w /\ l' = l /\ r = None) \/
    (exists a s g b g',
        l = a ++ (s, g) :: b /\ List.length a = i /\
        l' = a ++ (s, g') :: b /\
        resume E td dd s g w = (w', g') /\ r = rejection g g').
Proof.
  induction i as [|i IH]; intros l w w' l' r; destruct l as [|[s g] l]; simpl.
  - intros [= <- <- <-]. auto.
  - destruct (resume E td dd s g w) as [w1 g1] eqn:Eq. intros [= <- <- <-].
    right. exists [], s, g, l, g1. repeat split; trivial.
  - intros [= <- <- <-]. auto.
  - destruct (resume_nth E td dd i l w) as [[w1 l1] r1] eqn:Eq.
    intros [= <- <- <-].
    destruct (IH _ _ _ _ _ Eq) as [(H1 & -> & -> & ->)|
      (a & s' & g' & b & g'' & -> & Hlen & -> & Hr & ->)].
    + auto.
    + right. exists ((s, g) :: a), s', g', b, g''.
      repeat split; simpl; auto.
Qed.

Lemma resume_settled E td dd s g w :
  is_rejected g = true -> resume E td dd s g w = (w, g).
Proof.
  destruct g; simpl; try discriminate. trivial.
Qed.

(** *** Invariants of the fan-out, one source at a time *)

Section PerSource.

Variables (E : env) (td dd : path).
Variable P : ConfigSource -> stage -> list (call * bool) -> Prop.

Hypothesis P_grows : forall s g l l', P s g l -> P s g (l ++ l').

Hypothesis P_resume :
  forall s g w w' g' l,
    resume E td dd s g w = (w', g') ->
    P s g l ->
    P s g' (l ++ emitted E td dd s g (negb (is_rejected g'))).

Lemma run_per_source sched :
  forall f w w' f' base l,
    run E td dd sched f w = (w', f') ->
    log w = base ++ l ->
    Forall (fun t => P (fst t) (snd t) l) (tasks f) ->
    exists l',
      log w' = base ++ l ++ l' /\
      Forall (fun t => P (fst t) (snd t) (l ++ l')) (tasks f') /\
      map fst (tasks f') = map fst (tasks f).
Proof.
  induction sched as [|i sched IH]; intros f w w' f' base l; simpl.
  - intros [= <- <-] Hlog Hall. exists []. rewrite app_nil_r. auto.
  - destruct (resume_nth E td dd i (tasks f) w) as [[w1 l1] r] eqn:Eq.
    intros Hrun Hlog Hall.
    destruct (resume_nth_spec _ _ _ _ _ _ _ _ _ Eq) as [(H1 & -> & -> & ->)|
      (a & s & g & b & g' & Ht & Hlen & -> & Hr & ->)].
    + destruct (IH _ _ _ _ base l Hrun Hlog Hall) as [l' H]. exists l'. exact H.
    + pose proof (resume_log _ _ _ _ _ _ _ _ Hr) as Hl.
      set (ev := emitted E td dd s g (negb (is_rejected g'))) in *.
      rewrite Ht in Hall.
      apply Forall_app in Hall as [Ha Hb].
      apply Forall_cons_iff in Hb as [Hs Hb'].
      destruct (IH _ _ _ _ base (l ++ ev) Hrun) as [l' [Hlog' [Hall' Hsrc]]].
      * rewrite Hl, Hlog. now rewrite app_assoc.
      * simpl. apply Forall_app. split.
        -- eapply Forall_impl; [|exact Ha]. intros t. apply P_grows.
        -- constructor.
           ++ simpl in *. eapply P_resume; eauto.
           ++ eapply Forall_impl; [|exact Hb']. intros t. apply P_grows.
      * exists (ev ++ l'). rewrite !app_assoc in *.
        repeat split; trivial.
        simpl in Hsrc. rewrite Hsrc, Ht. now rewrite !map_app.
Qed.

End PerSource.

Lemma emitted_task_calls E td dd s g ok :
  Forall (fun e => task_call e = true) (emitted E td dd s g ok).
Proof.
  destruct g; simpl; repeat constructor.
  destruct (typedoc E (entry_of td s) (tsconfigFile (st_of td s)));
    repeat constructor.
Qed.

(** The fan-out makes no other calls than those of the sub-pipelines. *)
Lemma run_task_calls E td dd sched :
  forall f w w' f',
    run E td dd sched f w = (w', f') ->
    exists l, log w' = log w ++ l /\ Forall (fun e => task_call e = true) l.
Proof.
  induction sched as [|i sched IH]; intros f w w' f'; simpl.
  - intros [= <- <-]. exists []. now rewrite app_nil_r.
  - destruct (resume_nth E td dd i (tasks f) w) as [[w1 l1] r] eqn:Eq.
    intros Hrun. destruct (IH _ _ _ _ Hrun) as [l [Hl Hall]].
    destruct (resume_nth_spec _ _ _ _ _ _ _ _ _ Eq) as [(H1 & -> & -> & ->)|
      (a & s & g & b & g' & Ht & Hlen & -> & Hr & ->)].
    + now exists l.
    + apply resume_log in Hr. rewrite Hr, <- app_assoc in Hl.
      eexists. split; [exact Hl|].
      apply Forall_app. split; trivial. apply emitted_task_calls.
Qed.

Lemma rejection_Some g e : is_rejected g = false -> rejection g (Rejected e) = Some e.
Proof.
  destruct g; simpl; try discriminate; trivial.
Qed.

Lemma run_coherent E td dd sched :
  forall f w w' f',
    run E td dd sched f w = (w', f') -> coherent f -> coherent f'.
Proof.
  induction sched as [|i sched IH]; intros f w w' f'; simpl.
  - now intros [= <- <-].
  - destruct (resume_nth E td dd i (tasks f) w) as [[w1 l1] r] eqn:Eq.
    intros Hrun Hc. apply (IH _ _ _ _ Hrun). clear Hrun IH.
    destruct (resume_nth_spec _ _ _ _ _ _ _ _ _ Eq) as [(H1 & -> & -> & ->)|
      (a & s & g & b & g' & Ht & Hlen & -> & Hr & ->)];
      intros s0 e0 Hin; simpl in *.
    + specialize (Hc _ _ Hin). destruct (first f); congruence.
    + destruct (first f) as [e|] eqn:Ef; [discriminate|].
      assert (Hclean : forall s1 e1, ~ In (s1, Rejected e1) (tasks f)).
      { intros s1 e1 H. now apply (Hc _ _ H). }
      rewrite Ht in Hclean.
      apply in_app_or in Hin as [Hin|[Hin|Hin]].
      * exfalso. apply (Hclean s0 e0). apply in_or_app. now left.
      * injection Hin as -> ->.
        rewrite rejection_Some; [discriminate|].
        destruct g; trivial. exfalso. apply (Hclean s0 e).
        apply in_or_app. right. now left.
      * exfalso. apply (Hclean s0 e0). apply in_or_app. right. now right.
Qed.

Lemma start_coherent c : coherent (start c).
Proof.
  intros s e Hin. unfold start in Hin. simpl in Hin.
  apply in_map_iff in Hin as [s' [[=] _]].
Qed.

(** Once a callback is rejected, the promise of [Promise.all] is. *)
Lemma run_rejected_settles E td dd sched c w w' f s e :
  run E td dd sched (start c) w = (w', f) ->
  In (s, Rejected e) (tasks f) ->
  exists e', first f = Some e' /\ settle f = Settled (Throw e').
Proof.
  intros Hrun Hin.
  pose proof (run_coherent _ _ _ _ _ _ _ _ Hrun (start_coherent c) _ _ Hin) as H.
  unfold settle. destruct (first f) as [e'|]; [eauto | congruence].
Qed.

Lemma before_grows {A} (x y : A) l l' : before x y l -> before x y (l ++ l').
Proof.
  intros (a & b & c & ->). exists a, b, (c ++ l').
  now rewrite <- !app_assoc, <- !app_comm_cons, <- !app_assoc.
Qed.

Lemma In_then_before {A} (x y : A) l : In x l -> before x y (l ++ [y]).
Proof.
  intros H. apply in_split in H as (a & b & ->). exists a, b, [].
  now rewrite <- app_assoc.
Qed.

Lemma reserved_released_grows td s g l l' :
  reserved_released td s g l -> reserved_released td s g (l ++ l').
Proof.
  destruct g; simpl; trivial; try (intros H; apply in_or_app; now left).
  apply before_grows.
Qed.

Lemma reserved_released_resume E td dd s g w w' g' l :
  resume E td dd s g w = (w', g') ->
  reserved_released td s g l ->
  reserved_released td s g' (l ++ emitted E td dd s g (negb (is_rejected g'))).
Proof.
  intros Hr HP.
  destruct (is_rejected g') eqn:Erej.
  - destruct g'; try discriminate. exact I.
  - pose proof (resume_follows _ _ _ _ _ _ _ _ Hr Erej) as Hf.
    destruct g; simpl in Hf.
    + subst g'. simpl. apply in_or_app. right. now left.
    + destruct Hf; subst g'; simpl in *; apply in_or_app; now left.
    + subst g'. simpl in *. apply in_or_app. now left.
    + subst g'. simpl in *. apply in_or_app. now left.
    + subst g'. simpl in *. now apply In_then_before.
    + subst g'. simpl in *. now rewrite app_nil_r.
    + subst g'. discriminate.
Qed.

(** A resumed [generateJSON] that goes on had a project to write. *)
Lemma resume_generate_project E td dd s w w' g' :
  resume E td dd s AwaitGenerateJSON w = (w', g') ->
  is_rejected g' = false ->
  exists doc,
    typedoc E (entry_of td s) (tsconfigFile (st_of td s)) = Project doc.
Proof.
  simpl. unfold generateJSON.
  destruct (typedoc E (entry_of td s) (tsconfigFile (st_of td s))) as [e| |doc].
  - intros [= <- <-]. discriminate.
  - intros [= <- <-]. discriminate.
  - eauto.
Qed.

Lemma artifact_logged_resume E td dd s g w w' g' l :
  resume E td dd s g w = (w', g') ->
  artifact_logged E td dd s g l ->
  artifact_logged E td dd s g'
    (l ++ emitted E td dd s g (negb (is_rejected g'))).
Proof.
  intros Hr HP Hw.
  assert (Erej : is_rejected g' = false) by (destruct g'; trivial; discriminate).
  pose proof (resume_follows _ _ _ _ _ _ _ _ Hr Erej) as Hf.
  rewrite Erej. simpl negb.
  destruct g; simpl in Hf; try (subst g'; try discriminate).
  - destruct Hf; subst g'; discriminate.
  - destruct (resume_generate_project _ _ _ _ _ _ _ Hr Erej) as [doc Hd].
    split.
    + apply in_or_app. right. unfold artifact_event, doc_of. simpl.
      rewrite Hd. right. now left.
    + unfold doc_of. now rewrite Hd.
  - destruct (HP eq_refl). split; trivial. apply in_or_app. now left.
  - destruct (HP eq_refl). split; trivial. apply in_or_app. now left.
Qed.

(** In the log of a fan-out: every fulfilled source had its subdirectory
    reserved and then released, and every source past its extraction has
    its Output Artifact written. *)
Lemma run_sources_log E td dd sched c w w' f :
  run E td dd sched (start c) w = (w', f) ->
  exists l,
    log w' = log w ++ l /\
    Forall (fun e => task_call e = true) l /\
    map fst (tasks f) = sources c /\
    Forall (fun t => reserved_released td (fst t) (snd t) l) (tasks f) /\
    Forall (fun t => artifact_logged E td dd (fst t) (snd t) l) (tasks f).
Proof.
  intros Hrun.
  destruct (run_task_calls _ _ _ _ _ _ _ _ Hrun) as [l [Hl Hcalls]].
  assert (Hbase : log w = log w ++ []) by now rewrite app_nil_r.
  destruct (run_per_source E td dd (fun s g l => reserved_released td s g l)
              (reserved_released_grows td)
              (fun s g w w' g' l => reserved_released_resume E td dd s g w w' g' l)
              sched _ _ _ _ (log w) [] Hrun Hbase) as [l1 [Hl1 [H1 Hsrc]]].
  { unfold start. simpl. apply Forall_forall. intros t Ht.
    apply in_map_iff in Ht as [s [<- _]]. exact I. }
  destruct (run_per_source E td dd (artifact_logged E td dd)
              (fun s g l l' H Hw =>
                 conj (in_or_app _ _ _ (or_introl (proj1 (H Hw))))
                      (proj2 (H Hw)))
              (artifact_logged_resume E td dd)
              sched _ _ _ _ (log w) [] Hrun Hbase) as [l2 [Hl2 [H2 _]]].
  { unfold start. simpl. apply Forall_forall. intros t Ht.
    apply in_map_iff in Ht as [s [<- _]]. discriminate. }
  simpl in *.
  assert (l1 = l) by (rewrite Hl1 in Hl; now apply app_inv_head in Hl).
  assert (l2 = l) by (rewrite Hl2 in Hl; now apply app_inv_head in Hl).
  subst l1 l2. exists l. repeat split; trivial.
  rewrite Hsrc. unfold start. simpl. rewrite map_map. simpl. apply map_id.
Qed.

Lemma run_first_sticky E td dd sched :
  forall f w w' f' e,
    run E td dd sched f w = (w', f') -> first f = Some e -> first f' = Some e.
Proof.
  induction sched as [|i sched IH]; intros f w w' f' e; simpl.
  - now intros [= <- <-].
  - destruct (resume_nth E td dd i (tasks f) w) as [[w1 l1] r].
    intros Hrun Hf. apply (IH _ _ _ _ _ Hrun). simpl. now rewrite Hf.
Qed.

(** The artifact writes of one successful resumption, counted. *)
Lemma resume_artifacts E td dd s g w w' g' :
  resume E td dd s g w = (w', g') ->
  is_rejected g' = false ->
  filter is_artifact (emitted E td dd s g true) ++ wrote_event E td dd s g
  = wrote_event E td dd s g'.
Proof.
  intros Hr Erej.
  pose proof (resume_follows _ _ _ _ _ _ _ _ Hr Erej) as Hf.
  destruct g; simpl in Hf; try (subst g'; try discriminate); trivial.
  - destruct Hf; subst g'; trivial.
  - destruct (resume_generate_project _ _ _ _ _ _ _ Hr Erej) as [doc Hd].
    unfold wrote_event, artifact_event, doc_of. simpl. now rewrite Hd.
Qed.

Lemma written_app E td dd a b :
  written E td dd (a ++ b) = written E td dd a ++ written E td dd b.
Proof.
  unfold written. apply flat_map_app.
Qed.

(** In a fan-out that [Promise.all] has not seen rejected, the artifact
    writes in the log are those of the sources past their extraction, each
    counted once. *)
Lemma run_written E td dd sched :
  forall f w w' f' base l,
    run E td dd sched f w = (w', f') ->
    first f' = None ->
    unrejected (tasks f) ->
    log w = base ++ l ->
    Permutation (filter is_artifact l) (written E td dd (tasks f)) ->
    exists l',
      log w' = base ++ l' /\
      unrejected (tasks f') /\
      Permutation (filter is_artifact l') (written E td dd (tasks f')).
Proof.
  induction sched as [|i sched IH]; intros f w w' f' base l; simpl.
  - intros [= <- <-] _ Hu Hlog Hp. exists l. auto.
  - destruct (resume_nth E td dd i (tasks f) w) as [[w1 l1] r] eqn:Eq.
    intros Hrun Hnone Hu Hlog Hp.
    assert (Hf1 : match first f with Some e => Some e | None => r end = None).
    { destruct (match first f with Some e => Some e | None => r end) as [e|] eqn:Ef;
        trivial.
      pose proof (run_first_sticky _ _ _ _ _ _ _ _ e Hrun) as Hs.
      simpl in Hs. rewrite (Hs eq_refl) in Hnone. discriminate. }
    destruct (resume_nth_spec _ _ _ _ _ _ _ _ _ Eq) as [(H1 & -> & -> & ->)|
      (a & s & g & b & g' & Ht & Hlen & -> & Hr & ->)].
    + apply (IH _ _ _ _ base l Hrun); trivial.
    + rewrite Ht in Hu, Hp. unfold unrejected in Hu.
      apply Forall_app in Hu as [Hua Hub].
      apply Forall_cons_iff in Hub as [Hg Hub]. simpl in Hg.
      assert (Erej : is_rejected g' = false).
      { destruct (first f); [discriminate|].
        destruct g'; trivial. now rewrite rejection_Some in Hf1. }
      pose proof (resume_log _ _ _ _ _ _ _ _ Hr) as Hl.
      rewrite Erej in Hl. simpl negb in Hl.
      apply (IH _ _ _ _ base (l ++ emitted E td dd s g true) Hrun); trivial.
      * simpl. apply Forall_app. split; trivial. now constructor.
      * rewrite Hl, Hlog. now rewrite app_assoc.
      * simpl. rewrite filter_app, written_app. simpl.
        rewrite written_app in Hp. simpl in Hp.
        fold (wrote_event E td dd s g) in Hp.
        fold (wrote_event E td dd s g').
        rewrite <- (resume_artifacts _ _ _ _ _ _ _ _ Hr Erej).
        set (fe := filter is_artifact (emitted E td dd s g true)) in *.
        eapply perm_trans; [apply Permutation_app_tail; exact Hp|].
        rewrite <- !app_assoc. apply Permutation_app_head.
        rewrite (app_assoc (wrote_event E td dd s g)).
        apply Permutation_app_comm.
Qed.

(** *** The sequential parts *)

Lemma append_last_not_nil p suffix : append_last p suffix <> [].
Proof.
  destruct p; simpl; [discriminate|].
  intros H. apply app_eq_nil in H as [_ H]. discriminate.
Qed.

(** [prepare] calls [mkdir] at most once and [mkdtemp] at most once; when it
    succeeds the workspace root was created by [mkdtemp]. *)
Lemma prepare_log E w w1 r :
  prepare E w = (w1, r) ->
  exists l,
    log w1 = log w ++ l /\
    Forall (fun e => setup_call e = true) l /\
    (forall td, r = Normal td -> td <> [] /\ In (fs_mkdtemp td, true) l).
Proof.
  unfold prepare, and_then.
  set (dd := distDir (rootDir E)).
  assert (Htmp : forall w0 w0' r0,
             createTempDir E w0 = (w0', r0) ->
             exists l, log w0' = log w0 ++ l /\
                       Forall (fun e => setup_call e = true) l /\
                       (forall td, r0 = Normal td ->
                                   td <> [] /\ In (fs_mkdtemp td, true) l)).
  { intros w0 w0' r0. unfold createTempDir, mkdtemp, and_then.
    set (p := append_last _ (mkdtemp_suffix E)).
    destruct (create_dir (fs_mkdtemp p) E p w0) as [w2 [[]|e]] eqn:Eq;
      apply create_dir_log in Eq; intros [= <- <-];
      (eexists; split; [exact Eq|]; split; [repeat constructor|]).
    - intros td [= <-]. split; [apply append_last_not_nil | now left].
    - discriminate. }
  destruct (negb (existsSync w dd)).
  - destruct (mkdir E dd w) as [w0 [[]|e]] eqn:Eq; apply create_dir_log in Eq.
    + intros H. destruct (Htmp _ _ _ H) as [l [Hl [Hall Htd]]].
      exists ((fs_mkdir dd, true) :: l). rewrite Hl, Eq, <- app_assoc.
      repeat split; trivial.
      * now constructor.
      * now apply Htd.
      * right. now apply Htd.
    + intros [= <- <-]. eexists. split; [exact Eq|].
      split; [repeat constructor | discriminate].
  - apply Htmp.
Qed.

Lemma task_call_kinds e :
  task_call e = true -> is_rmdir e = false /\ is_writeFile e = false.
Proof.
  unfold task_call, is_rmdir, is_writeFile. destruct (fst e); auto; discriminate.
Qed.

Lemma setup_call_kinds e :
  setup_call e = true ->
  is_rmdir e = false /\ is_writeFile e = false /\ is_artifact e = false.
Proof.
  unfold setup_call, is_rmdir, is_writeFile, is_artifact.
  destruct (fst e); auto; discriminate.
Qed.

(** When [deepEqual] finds a difference, [build] is the shared pipeline
    followed by [writeMeta]. *)
Lemma build_rebuilds E order sched c w latest current :
  fetchLatestMeta (fetch E) order c = Settled (Normal latest) ->
  fetchCurrentMeta (fetch E) c = Normal current ->
  Detector.deepEqual current latest = Normal false ->
  build E order sched c w =
  workspace_build E sched c (fun dd => finish (writeMeta E c dd latest)) w.
Proof.
  intros Hl Hc Hd. unfold build. now rewrite Hl, Hc, Hd.
Qed.

Lemma build_always_rebuilds E order sched c w latest :
  fetchLatestMeta (fetch E) order c = Settled (Normal latest) ->
  build_always E order sched c w =
  workspace_build E sched c (fun dd => finish (writeMeta E c dd latest)) w.
Proof.
  intros Hl. unfold build_always. now rewrite Hl.
Qed.

(** A source rejected in the fan-out rejects the pipeline in the state the
    fan-out left: neither [rmdir(td)] nor what follows it is reached. *)
Lemma workspace_build_rejected E sched c final w w1 td w2 f s e :
  prepare E w = (w1, Normal td) ->
  run E td (distDir (rootDir E)) sched (start c) w1 = (w2, f) ->
  In (s, Rejected e) (tasks f) ->
  exists e' l,
    workspace_build E sched c final w = (w2, Settled (Throw e')) /\
    log w2 = log w ++ l /\
    Forall (fun ev => is_rmdir ev = false /\ is_writeFile ev = false) l.
Proof.
  intros Hp Hrun Hin.
  destruct (run_rejected_settles _ _ _ _ _ _ _ _ _ _ Hrun Hin) as [e' [_ Hs]].
  destruct (prepare_log _ _ _ _ Hp) as [l1 [Hl1 [Hk1 _]]].
  destruct (run_task_calls _ _ _ _ _ _ _ _ Hrun) as [l2 [Hl2 Hk2]].
  exists e', (l1 ++ l2). unfold workspace_build. rewrite Hp, Hrun, Hs.
  repeat split.
  - rewrite Hl2, Hl1. now rewrite app_assoc.
  - apply Forall_app. split.
    + eapply Forall_impl; [|exact Hk1]. intros ev H.
      apply setup_call_kinds in H. tauto.
    + eapply Forall_impl; [|exact Hk2]. intros ev H.
      now apply task_call_kinds in H.
Qed.

Lemma path_eqb_refl p : path_eqb p p = true.
Proof.
  induction p as [|a p IH]; simpl; trivial. now rewrite String.eqb_refl.
Qed.

(** After a successful [rmdir(p)] the directory is gone. *)
Lemma rmdir_removed E p w w' :
  p <> [] -> rmdir E p w = (w', Normal tt) -> is_dir w' p = false.
Proof.
  intros Hp. unfold rmdir, fail.
  destruct (denied E p); [discriminate|].
  destruct (negb _); [discriminate|].
  destruct (has_entries w p); [discriminate|].
  intros [= <-]. unfold is_dir. destruct p as [|a p]; [congruence|]. simpl dirs.
  apply not_true_is_false. intros H.
  apply existsb_exists in H as [q [Hq Hq']].
  apply filter_In in Hq as [_ Hq].
  apply negb_true_iff in Hq.
  change (path_eqb (a :: p) q = false) in Hq. congruence.
Qed.

(** What a settled [writeMeta] did. *)
Lemma writeMeta_spec E c d latest w w' r :
  writeMeta E c d latest w = (w', r) ->
  dirs w' = dirs w /\
  ((JSON_stringify latest 2 = None /\ w' = w /\ r = Throw TypeError) \/
   (exists text,
       JSON_stringify latest 2 = Some text /\
       log w' = log w ++ [(fs_writeFile (join d (file (meta c))) text,
                           is_normal r)] /\
       (is_normal r = true -> In (join d (file (meta c)), text) (files w')))).
Proof.
  unfold writeMeta. destruct (JSON_stringify latest 2) as [text|].
  - unfold writeFile. intros H. pose proof (store_log _ _ _ _ _ _ _ H) as Hl.
    assert (Hd : dirs w' = dirs w /\
                 (is_normal r = true ->
                  In (join d (file (meta c)), text) (files w'))).
    { revert H. unfold store, fail.
      destruct (denied E _); [intros [= <- <-]; split; [trivial|discriminate]|].
      destruct (is_dir w _); [intros [= <- <-]; split; [trivial|discriminate]|].
      destruct (negb _); intros [= <- <-]; (split; [trivial|]);
        [discriminate|].
      intros _. simpl. apply in_or_app. right. now left. }
    destruct Hd as [Hd Hf]. split; trivial. right. exists text. auto.
  - intros [= <- <-]. auto.
Qed.

Lemma before_after {A} (x y : A) l0 l : before x y l -> before x y (l0 ++ l).
Proof.
  intros (a & b & c & ->). exists (l0 ++ a), b, c. now rewrite <- app_assoc.
Qed.

Lemma all_fulfilled_stage l s g :
  all_fulfilled l = true -> In (s, g) l -> g = Fulfilled.
Proof.
  unfold all_fulfilled. rewrite forallb_forall. intros H Hin.
  specialize (H _ Hin). simpl in H. now destruct g.
Qed.

Lemma written_fulfilled E td dd l :
  all_fulfilled l = true ->
  written E td dd l = map (artifact_event E td dd) (map fst l).
Proof.
  induction l as [|[s g] l IH]; simpl; trivial.
  intros H. apply andb_prop in H as [Hg Hl].
  destruct g; try discriminate. simpl. now rewrite <- IH.
Qed.

Lemma filter_none {A} (p : A -> bool) l :
  Forall (fun x => p x = false) l -> filter p l = [].
Proof.
  induction 1 as [|x l Hx _ IH]; simpl; trivial. now rewrite Hx.
Qed.

(** *** A pipeline that runs to its end *)

Lemma workspace_build_fulfilled E sched c final w w' :
  workspace_build E sched c final w = (w', Settled (Normal tt)) ->
  exists w1 td w2 f w3,
    prepare E w = (w1, Normal td) /\
    run E td (distDir (rootDir E)) sched (start c) w1 = (w2, f) /\
    first f = None /\ all_fulfilled (tasks f) = true /\
    rmdir E td w2 = (w3, Normal tt) /\
    final (distDir (rootDir E)) w3 = (w', Settled (Normal tt)).
Proof.
  unfold workspace_build.
  destruct (prepare E w) as [w1 [td|e]] eqn:Hp; [|discriminate].
  destruct (run E td _ sched (start c) w1) as [w2 f] eqn:Hrun.
  unfold settle. destruct (first f) as [e|] eqn:Hf; [discriminate|].
  destruct (all_fulfilled (tasks f)) eqn:Hall; [|discriminate].
  destruct (rmdir E td w2) as [w3 [[]|e]] eqn:Hrm; [|discriminate].
  intros H. exists w1, td, w2, f, w3. repeat split; trivial.
Qed.

(** The log and the filesystem after a pipeline that ran to its end. *)
Lemma pipeline_fulfilled E sched c latest w w' :
  let dd := distDir (rootDir E) in
  workspace_build E sched c (fun d => finish (writeMeta E c d latest)) w
    = (w', Settled (Normal tt)) ->
  exists td text l,
    JSON_stringify latest 2 = Some text /\
    log w' = log w ++ l ++ [(fs_rmdir td, true);
                            (fs_writeFile (join dd (file (meta c))) text, true)] /\
    In (fs_mkdtemp td, true) l /\
    Forall (fun ev => is_rmdir ev = false /\ is_writeFile ev = false) l /\
    (forall s, In s (sources c) ->
               before (fs_mkdir (st_of td s), true) (fs_rm (st_of td s), true) l) /\
    Permutation (filter is_artifact l) (map (artifact_event E td dd) (sources c)) /\
    (forall s, In s (sources c) ->
               typedoc E (entry_of td s) (tsconfigFile (st_of td s))
               = Project (doc_of E td s)) /\
    is_dir w' td = false /\
    In (join dd (file (meta c)), text) (files w').
Proof.
  intros dd H.
  apply workspace_build_fulfilled in H
    as (w1 & td & w2 & f & w3 & Hp & Hrun & Hf & Hall & Hrm & Hfin).
  fold dd in Hrun, Hfin.
  destruct (prepare_log _ _ _ _ Hp) as [l1 [Hl1 [Hk1 Htd]]].
  destruct (Htd td eq_refl) as [Htd0 Hmk].
  destruct (run_sources_log _ _ _ _ _ _ _ _ Hrun)
    as [l2 [Hl2 [Hk2 [Hsrc [Hrr Hart]]]]].
  destruct (run_written E td dd sched _ _ _ _ (log w1) [] Hrun Hf) as
    [l2' [Hl2' [_ Hperm]]].
  { unfold unrejected, start. simpl. apply Forall_forall. intros t Ht.
    apply in_map_iff in Ht as [s [<- _]]. reflexivity. }
  { now rewrite app_nil_r. }
  { unfold start. simpl.
    assert (Hw0 : forall l0, written E td dd
                    (map (fun s => (s, AwaitMkdirSt)) l0) = []).
    { induction l0; simpl; trivial. }
    rewrite Hw0. constructor. }
  assert (l2' = l2) by (rewrite Hl2' in Hl2; now apply app_inv_head in Hl2).
  subst l2'.
  pose proof (rmdir_log _ _ _ _ _ Hrm) as Hl3. simpl in Hl3.
  pose proof (rmdir_removed _ _ _ _ Htd0 Hrm) as Hgone.
  unfold finish in Hfin.
  destruct (writeMeta E c dd latest w3) as [w4 r] eqn:Hw.
  injection Hfin as <- ->.
  destruct (writeMeta_spec _ _ _ _ _ _ _ Hw)
    as [Hd [(_ & _ & [=])|(text & Htext & Hl4 & Hfile)]].
  exists td, text, (l1 ++ l2). simpl in Hl4.
  split; [exact Htext|].
  split; [|split; [|split; [|split; [|split; [|split; [|split]]]]]].
  - rewrite Hl4, Hl3, Hl2, Hl1. now rewrite <- !app_assoc.
  - apply in_or_app. now left.
  - apply Forall_app. split.
    + eapply Forall_impl; [|exact Hk1]. intros ev Hev.
      apply setup_call_kinds in Hev. tauto.
    + eapply Forall_impl; [|exact Hk2]. intros ev Hev.
      now apply task_call_kinds in Hev.
  - intros s Hs. apply before_after.
    rewrite <- Hsrc in Hs. apply in_map_iff in Hs as [[s' g] [<- Hin]].
    rewrite Forall_forall in Hrr. specialize (Hrr _ Hin). simpl in *.
    now rewrite (all_fulfilled_stage _ _ _ Hall Hin) in Hrr.
  - rewrite filter_app, (filter_none is_artifact l1).
    + simpl. rewrite (written_fulfilled _ _ _ _ Hall), Hsrc in Hperm. exact Hperm.
    + eapply Forall_impl; [|exact Hk1]. intros ev Hev.
      apply setup_call_kinds in Hev. tauto.
  - intros s Hs.
    rewrite <- Hsrc in Hs. apply in_map_iff in Hs as [[s' g] [<- Hin]].
    rewrite Forall_forall in Hart. specialize (Hart _ Hin). simpl in *.
    rewrite (all_fulfilled_stage _ _ _ Hall Hin) in Hart. now apply Hart.
  - unfold is_dir in *. now rewrite Hd.
  - now apply Hfile.
Qed.

(** *** A pipeline that does not run to its end *)




(** What a rejected fan-out leaves behind: the Output Artifacts of the
    sources that were past their extraction stay written. *)
Lemma rejected_fanout_keeps_artifacts E sched c final w w1 td w2 f e :
  let dd := distDir (rootDir E) in
  prepare E w = (w1, Normal td) ->
  run E td dd sched (start c) w1 = (w2, f) ->
  first f = Some e ->
  workspace_build E sched c final w = (w2, Settled (Throw e)) /\
  forall s g, In (s, g) (tasks f) -> wrote g = true ->
              In (artifact_event E td dd s) (log w2) /\
              typedoc E (entry_of td s) (tsconfigFile (st_of td s))
              = Project (doc_of E td s).
Proof.
  intros dd Hp Hrun Hf. split.
  - unfold workspace_build. fold dd. rewrite Hp, Hrun. unfold settle.
    now rewrite Hf.
  - intros s g Hin Hw.
    destruct (run_sources_log _ _ _ _ _ _ _ _ Hrun)
      as [l2 [Hl2 [_ [_ [_ Hart]]]]].
    rewrite Forall_forall in Hart. destruct (Hart _ Hin Hw) as [Ha Hd].
    split; trivial. rewrite Hl2. apply in_or_app. now right.
Qed.

(** *** A clone that cannot be spawned *)

Lemma resume_spawn_error E td dd s w code :
  git E (clone_args (st_of td s) s) = SpawnError code ->
  snd (resume E td dd s AwaitCloneRepo w) = Rejected (SystemError code).
Proof.
  intros H. simpl.
  pose proof (cloneRepo_result E (st_of td s) s w) as Hr. rewrite H in Hr.
  destruct (cloneRepo E (st_of td s) s w) as [w' r]. simpl in *. now subst.
Qed.

Lemma no_child_resume E td dd s g w w' g' l :
  resume E td dd s g w = (w', g') ->
  no_child E td s g l ->
  no_child E td s g' (l ++ emitted E td dd s g (negb (is_rejected g'))).
Proof.
  intros Hr HP Hgit. specialize (HP Hgit). destruct Hgit as [code Hgit].
  destruct g; simpl in HP; try contradiction.
  - simpl in Hr. destruct (mkdir E (st_of td s) w) as [w1 [[]|e]];
      injection Hr as <- <-; exact I.
  - pose proof (resume_spawn_error E td dd s w code Hgit) as H.
    rewrite Hr in H. simpl in H. subst g'. exact I.
  - simpl in Hr. injection Hr as <- <-. exact I.
Qed.

(** A source whose clone cannot be spawned keeps the fan-out from being
    fulfilled, under every schedule. *)
Lemma run_spawn_error_never_fulfilled E td dd sched c w w' f s code :
  run E td dd sched (start c) w = (w', f) ->
  In s (sources c) ->
  git E (clone_args (st_of td s) s) = SpawnError code ->
  settle f <> Settled (Normal tt).
Proof.
  intros Hrun Hs Hgit.
  assert (Hbase : log w = log w ++ []) by now rewrite app_nil_r.
  destruct (run_per_source E td dd (no_child E td)
              (fun s g l l' H => H) (no_child_resume E td dd)
              sched _ _ _ _ (log w) [] Hrun Hbase) as [l [_ [Hall Hsrc]]].
  { unfold start. simpl. apply Forall_forall. intros t Ht.
    apply in_map_iff in Ht as [s' [<- _]]. intros _. exact I. }
  assert (Hsrc' : map fst (tasks f) = sources c).
  { rewrite Hsrc. unfold start. simpl. rewrite map_map. apply map_id. }
  rewrite <- Hsrc' in Hs. apply in_map_iff in Hs as [[s' g] [<- Hin]].
  rewrite Forall_forall in Hall. specialize (Hall _ Hin). simpl in Hall.
  assert (Hheld : held_at_clone g) by (apply Hall; eauto).
  unfold settle. destruct (first f); [discriminate|].
  destruct (all_fulfilled (tasks f)) eqn:Ha; [|discriminate].
  rewrite (all_fulfilled_stage _ _ _ Ha Hin) in Hheld. contradiction.
Qed.

Lemma workspace_build_spawn_error E sched c final w w1 td s code :
  prepare E w = (w1, Normal td) ->
  In s (sources c) ->
  git E (clone_args (st_of td s) s) = SpawnError code ->
  snd (workspace_build E sched c final w) <> Settled (Normal tt).
Proof.
  intros Hp Hs Hgit. unfold workspace_build. rewrite Hp.
  destruct (run E td _ sched (start c) w1) as [w2 f] eqn:Hrun.
  pose proof (run_spawn_error_never_fulfilled _ _ _ _ _ _ _ _ _ _
                Hrun Hs Hgit) as Hn.
  destruct (settle f) as [[[]|e]|]; simpl; try discriminate. congruence.
Qed.

(** *** A fan-out in which every callback is fulfilled *)

Lemma settle_fulfilled f :
  settle f = Settled (Normal tt) ->
  first f = None /\ all_fulfilled (tasks f) = true.
Proof.
  unfold settle. destruct (first f); [discriminate|].
  destruct (all_fulfilled (tasks f)); [auto | discriminate].
Qed.

(** When every callback is fulfilled, every subdirectory was reserved and
    released, and [rmdir(td)] is the next call.  When it succeeds the root
    is gone, whatever [writeMeta] does after it; when it fails, the pipeline
    is rejected with its error. *)
Lemma pipeline_released E sched c latest w w1 td w2 f :
  let dd := distDir (rootDir E) in
  prepare E w = (w1, Normal td) ->
  run E td dd sched (start c) w1 = (w2, f) ->
  settle f = Settled (Normal tt) ->
  exists l tail w' o,
    workspace_build E sched c (fun d => finish (writeMeta E c d latest)) w
      = (w', o) /\
    log w2 = log w ++ l /\
    log w' = log w ++ l
             ++ (fs_rmdir td, is_normal (snd (rmdir E td w2))) :: tail /\
    In (fs_mkdtemp td, true) l /\
    Forall (fun ev => is_rmdir ev = false) l /\
    Forall (fun ev => is_rmdir ev = false) tail /\
    (forall s, In s (sources c) ->
               before (fs_mkdir (st_of td s), true)
                      (fs_rm (st_of td s), true) l) /\
    (is_normal (snd (rmdir E td w2)) = true -> is_dir w' td = false) /\
    (is_normal (snd (rmdir E td w2)) = false ->
     tail = [] /\ o = Settled (snd (rmdir E td w2))).
Proof.
  intros dd Hp Hrun Hs.
  destruct (settle_fulfilled _ Hs) as [Hf Hall].
  destruct (prepare_log _ _ _ _ Hp) as [l1 [Hl1 [Hk1 Htd]]].
  destruct (Htd td eq_refl) as [Htd0 Hmk].
  destruct (run_sources_log _ _ _ _ _ _ _ _ Hrun)
    as [l2 [Hl2 [Hk2 [Hsrc [Hrr _]]]]].
  assert (Hl12 : log w2 = log w ++ l1 ++ l2).
  { rewrite Hl2, Hl1. now rewrite app_assoc. }
  assert (Hk : Forall (fun ev => is_rmdir ev = false) (l1 ++ l2)).
  { apply Forall_app. split.
    - eapply Forall_impl; [|exact Hk1]. intros ev Hev.
      apply setup_call_kinds in Hev. tauto.
    - eapply Forall_impl; [|exact Hk2]. intros ev Hev.
      apply task_call_kinds in Hev. tauto. }
  assert (Hb : forall s, In s (sources c) ->
                 before (fs_mkdir (st_of td s), true)
                        (fs_rm (st_of td s), true) (l1 ++ l2)).
  { intros s Hin. apply before_after.
    rewrite <- Hsrc in Hin. apply in_map_iff in Hin as [[s' g] [<- Hin]].
    rewrite Forall_forall in Hrr. specialize (Hrr _ Hin). simpl in *.
    now rewrite (all_fulfilled_stage _ _ _ Hall Hin) in Hrr. }
  unfold workspace_build. fold dd. rewrite Hp, Hrun, Hs.
  destruct (rmdir E td w2) as [w3 r] eqn:Hrm.
  pose proof (rmdir_log _ _ _ _ _ Hrm) as Hl3. simpl snd.
  destruct r as [[]|e].
  - pose proof (rmdir_removed _ _ _ _ Htd0 Hrm) as Hgone.
    unfold finish. destruct (writeMeta E c dd latest w3) as [w4 r] eqn:Hw.
    destruct (writeMeta_spec _ _ _ _ _ _ _ Hw)
      as [Hd [(_ & -> & _)|(text & _ & Hl4 & _)]].
    + exists (l1 ++ l2), [], w3, (Settled r).
      split; [reflexivity|]. split; [exact Hl12|].
      split; [rewrite Hl3, Hl12; now rewrite <- !app_assoc|].
      split; [apply in_or_app; now left|].
      split; [exact Hk|]. split; [constructor|]. split; [exact Hb|].
      split; [trivial | discriminate].
    + exists (l1 ++ l2),
        [(fs_writeFile (join dd (file (meta c))) text, is_normal r)], w4,
        (Settled r).
      split; [reflexivity|]. split; [exact Hl12|].
      split; [rewrite Hl4, Hl3, Hl12; now rewrite <- !app_assoc|].
      split; [apply in_or_app; now left|].
      split; [exact Hk|]. split; [repeat constructor|]. split; [exact Hb|].
      split; [|discriminate].
      intros _. unfold is_dir in *. now rewrite Hd.
  - exists (l1 ++ l2), [], w3, (Settled (Throw e)).
    split; [reflexivity|]. split; [exact Hl12|].
    split; [rewrite Hl3, Hl12; now rewrite <- !app_assoc|].
    split; [apply in_or_app; now left|].
    split; [exact Hk|]. split; [constructor|]. split; [exact Hb|].
    split; [discriminate | auto].
Qed.

End PipelineFacts.

(** ** The files of a run *)

Module FilesFacts.
Import JS Config Oracle Sys Pipeline PipelineFacts.























(** *** The files of [build] *)












End FilesFacts.

(** ** Claims on the Source Fetcher and the workspace *)

Module WorkspaceClaims.
Import JS Config Oracle Sys Pipeline Detector PipelineFacts Scenario.

(** C3, as stated, fails: here the clone process exits with status 128,
    [cloneRepo] is resolved by the [close] event and the callback of the
    source goes on to its next [await] instead of being rejected. *)
Lemma cloneRepo_resolves_on_nonzero_exit :
  let s := source "o" "r1" "main" in
  let td := ["tmp"; "pkg-AbCdEf"] in
  let w := fst (prepare clone_exits_128 disk) in
  git clone_exits_128 (clone_args (st_of td s) s) = Close (Some 128) /\
  snd (cloneRepo clone_exits_128 (st_of td s) s w) = Normal tt /\
  snd (resume clone_exits_128 td ["repo"; "dist"] s AwaitCloneRepo w)
    = AwaitMkdirSd.
Proof.
  repeat split.
Qed.

(** C3, amended.  [cloneRepo] settles by the event of the child process
    alone: it is rejected when the process fails to spawn (the [error]
    event), and resolved when the process closes, whatever its exit
    status.  A rejected [cloneRepo] rejects the callback of its source, and
    a rejected callback rejects, through [Promise.all], the pipeline.  Under
    no schedule is a pipeline fulfilled that has a source whose clone cannot
    be spawned. *)
Theorem cloneRepo_settles_by_child_event (E : env) :
  (forall d s w code,
      git E (clone_args d s) = SpawnError code ->
      snd (cloneRepo E d s w) = Throw (SystemError code)) /\
  (forall d s w code,
      git E (clone_args d s) = Close code ->
      snd (cloneRepo E d s w) = Normal tt) /\
  (forall td dd s w code,
      git E (clone_args (st_of td s) s) = SpawnError code ->
      snd (resume E td dd s AwaitCloneRepo w) = Rejected (SystemError code)) /\
  (forall sched c final w w1 td w2 f s e,
      prepare E w = (w1, Normal td) ->
      run E td (distDir (rootDir E)) sched (start c) w1 = (w2, f) ->
      In (s, Rejected e) (tasks f) ->
      exists e', workspace_build E sched c final w = (w2, Settled (Throw e'))) /\
  (forall sched c final w w1 td s code,
      prepare E w = (w1, Normal td) ->
      In s (sources c) ->
      git E (clone_args (st_of td s) s) = SpawnError code ->
      snd (workspace_build E sched c final w) <> Settled (Normal tt)).
Proof.
  split; [|split; [|split; [|split]]].
  - intros d s w code H. now rewrite cloneRepo_result, H.
  - intros d s w code H. now rewrite cloneRepo_result, H.
  - intros td dd s w code. apply resume_spawn_error.
  - intros sched c final w w1 td w2 f s e Hp Hrun Hin.
    destruct (workspace_build_rejected E sched c final _ _ _ _ _ _ _ Hp Hrun Hin)
      as [e' [l [H _]]].
    now exists e'.
  - intros sched c final w w1 td s code. apply workspace_build_spawn_error.
Qed.

Lemma cloneRepo_settles_by_child_event_witness :
  let E := no_git_for_develop in
  let s := source "o" "r1" "develop" in
  let td := ["tmp"; "pkg-AbCdEf"] in
  let sched := [0; 1; 1; 0] in
  let w1 := fst (prepare E disk) in
  let w2 := fst (run E td (distDir (rootDir E)) sched (start two) w1) in
  snd (cloneRepo E (st_of td s) s w1) = Throw (SystemError "ENOENT") /\
  exists e',
    workspace_build E sched two (fun _ => finish (ret tt)) disk
    = (w2, Settled (Throw e')).
Proof.
  cbv zeta. split.
  - apply (proj1 (cloneRepo_settles_by_child_event no_git_for_develop)).
    reflexivity.
  - apply (proj1 (proj2 (proj2 (proj2
             (cloneRepo_settles_by_child_event no_git_for_develop))))
             [0; 1; 1; 0] two (fun _ => finish (ret tt)) disk
             (fst (prepare no_git_for_develop disk)) ["tmp"; "pkg-AbCdEf"]
             _ (snd (run no_git_for_develop ["tmp"; "pkg-AbCdEf"]
                       (distDir (rootDir no_git_for_develop)) [0; 1; 1; 0]
                       (start two) (fst (prepare no_git_for_develop disk))))
             (source "o" "r1" "develop") (SystemError "ENOENT")).
    + reflexivity.
    + reflexivity.
    + vm_compute. right. left. reflexivity.
Defined.

(** C4, as stated, fails: of two sources built concurrently, the clone of
    [develop] cannot be spawned after [main] has run to its end.  [build]
    is rejected; the workspace root was allocated and the subdirectory of
    [develop] reserved, but that subdirectory is never released, [rmdir] is
    never called, and both directories are still there. *)
Lemma failed_source_leaks_workspace :
  let td := ["tmp"; "pkg-AbCdEf"] in
  let r := build no_git_for_develop [0; 1] [0; 0; 0; 0; 0; 1; 1] two disk in
  snd r = Settled (Throw (SystemError "ENOENT")) /\
  In (fs_mkdtemp td, true) (log (fst r)) /\
  In (fs_mkdir (td ++ ["develop"]), true) (log (fst r)) /\
  (forall ok, ~ In (fs_rm (td ++ ["develop"]), ok) (log (fst r))) /\
  (forall p ok, ~ In (fs_rmdir p, ok) (log (fst r))) /\
  is_dir (fst r) td = true /\
  is_dir (fst r) (td ++ ["develop"]) = true.
Proof.
  vm_compute. split; [reflexivity|]. split; [tauto|]. split; [tauto|].
  split; [|split; [|split; reflexivity]].
  - intros ok H. repeat (destruct H as [H|H]; [discriminate H|]). exact H.
  - intros p ok H. repeat (destruct H as [H|H]; [discriminate H|]). exact H.
Qed.

(** C4, amended.  In a run of [build] that finds the manifests different
    and allocates a workspace: when the callback of every source is
    fulfilled, the workspace root was allocated by [mkdtemp], the
    subdirectory of every source was reserved and later released, and all
    of that before the one [rmdir] call, which is made on the root and is
    the next call; when that [rmdir] succeeds the root is gone at the end
    of the run, whatever the manifest write after it does, and when it
    fails [build] is rejected with its error and makes no further call.  In
    particular a run that is fulfilled has removed the root.  When the
    callback of a source is rejected, [build] is rejected in the state the
    fan-out left, without any [rmdir] call (the root is not destroyed). *)
Theorem workspace_released_then_destroyed E order sched c w latest current :
  fetchLatestMeta (fetch E) order c = Settled (Normal latest) ->
  fetchCurrentMeta (fetch E) c = Normal current ->
  deepEqual current latest = Normal false ->
  (forall w1 td w2 f,
      prepare E w = (w1, Normal td) ->
      run E td (distDir (rootDir E)) sched (start c) w1 = (w2, f) ->
      settle f = Settled (Normal tt) ->
      exists l tail w' o,
        build E order sched c w = (w', o) /\
        log w2 = log w ++ l /\
        log w' = log w ++ l
                 ++ (fs_rmdir td, is_normal (snd (rmdir E td w2))) :: tail /\
        In (fs_mkdtemp td, true) l /\
        Forall (fun ev => is_rmdir ev = false) l /\
        Forall (fun ev => is_rmdir ev = false) tail /\
        (forall s, In s (sources c) ->
                   before (fs_mkdir (st_of td s), true)
                          (fs_rm (st_of td s), true) l) /\
        (is_normal (snd (rmdir E td w2)) = true -> is_dir w' td = false) /\
        (is_normal (snd (rmdir E td w2)) = false ->
         tail = [] /\ o = Settled (snd (rmdir E td w2)))) /\
  (forall w',
      build E order sched c w = (w', Settled (Normal tt)) ->
      exists td l last,
        log w' = log w ++ l ++ [(fs_rmdir td, true); last] /\
        is_rmdir last = false /\
        In (fs_mkdtemp td, true) l /\
        Forall (fun ev => is_rmdir ev = false) l /\
        (forall s, In s (sources c) ->
                   before (fs_mkdir (st_of td s), true)
                          (fs_rm (st_of td s), true) l) /\
        is_dir w' td = false) /\
  (forall w1 td w2 f s e,
      prepare E w = (w1, Normal td) ->
      run E td (distDir (rootDir E)) sched (start c) w1 = (w2, f) ->
      In (s, Rejected e) (tasks f) ->
      exists e' l,
        build E order sched c w = (w2, Settled (Throw e')) /\
        log w2 = log w ++ l /\
        Forall (fun ev => is_rmdir ev = false) l).
Proof.
  intros Hl Hc Hd. rewrite (build_rebuilds _ _ _ _ _ _ _ Hl Hc Hd).
  split; [|split].
  - intros w1 td w2 f Hp Hrun Hs.
    apply (pipeline_released E sched c latest _ _ _ _ _ Hp Hrun Hs).
  - intros w' H.
    destruct (pipeline_fulfilled _ _ _ _ _ _ H)
      as (td & text & l & _ & Hlog & Hmk & Hk & Hrr & _ & _ & Hgone & _).
    exists td, l, (fs_writeFile (join (distDir (rootDir E)) (file (meta c))) text,
                   true).
    repeat split; trivial.
    eapply Forall_impl; [|exact Hk]. simpl. tauto.
  - intros w1 td w2 f s e Hp Hrun Hin.
    destruct (workspace_build_rejected E sched c
                (fun d => finish (writeMeta E c d latest)) _ _ _ _ _ _ _
                Hp Hrun Hin) as [e' [l [H [Hlog Hk]]]].
    exists e', l. repeat split; trivial.
    eapply Forall_impl; [|exact Hk]. simpl. tauto.
Qed.

(** Two runs in which every callback is fulfilled: one removes the root and
    writes the manifest; in the other the Output Artifact of the source
    landed in the workspace root, [rmdir] fails and the root stays. *)
Lemma workspace_released_then_destroyed_witness :
  let td := ["tmp"; "pkg-AbCdEf"] in
  (let sched := [1; 1; 0; 0; 1; 0; 0; 1; 0; 1] in
   let w1 := fst (prepare first_run disk) in
   let w2 := fst (run first_run td (distDir (rootDir first_run)) sched
                    (start two) w1) in
   exists l tail w' o,
     build first_run [0; 1] sched two disk = (w', o) /\
     log w2 = log disk ++ l /\
     log w' = log disk ++ l ++ (fs_rmdir td, true) :: tail /\
     In (fs_mkdtemp td, true) l /\
     Forall (fun ev => is_rmdir ev = false) l /\
     Forall (fun ev => is_rmdir ev = false) tail /\
     (forall s, In s (sources two) ->
                before (fs_mkdir (st_of td s), true)
                       (fs_rm (st_of td s), true) l) /\
     (true = true -> is_dir w' td = false) /\
     (true = false -> tail = [] /\ o = Settled (Normal tt))) /\
  (let sched := [0; 0; 0; 0; 0] in
   let w1 := fst (prepare first_run disk) in
   let w2 := fst (run first_run td (distDir (rootDir first_run)) sched
                    (start stray) w1) in
   exists l tail w' o,
     build first_run [0] sched stray disk = (w', o) /\
     log w2 = log disk ++ l /\
     log w' = log disk ++ l ++ (fs_rmdir td, false) :: tail /\
     In (fs_mkdtemp td, true) l /\
     Forall (fun ev => is_rmdir ev = false) l /\
     Forall (fun ev => is_rmdir ev = false) tail /\
     (forall s, In s (sources stray) ->
                before (fs_mkdir (st_of td s), true)
                       (fs_rm (st_of td s), true) l) /\
     (false = true -> is_dir w' td = false) /\
     (false = false ->
      tail = [] /\ o = Settled (Throw (SystemError "ENOTEMPTY")))).
Proof.
  cbv zeta. split.
  - apply (proj1 (workspace_released_then_destroyed
                    first_run [0; 1] [1; 1; 0; 0; 1; 0; 0; 1; 0; 1] two disk
                    (VObject [("main", VObject [("r1", VString "abc123")]);
                              ("develop", VObject [("r1", VString "abc123")])])
                    (VObject [])
                    eq_refl eq_refl eq_refl)
             (fst (prepare first_run disk)) ["tmp"; "pkg-AbCdEf"]
             (fst (run first_run ["tmp"; "pkg-AbCdEf"]
                     (distDir (rootDir first_run))
                     [1; 1; 0; 0; 1; 0; 0; 1; 0; 1] (start two)
                     (fst (prepare first_run disk))))
             (snd (run first_run ["tmp"; "pkg-AbCdEf"]
                     (distDir (rootDir first_run))
                     [1; 1; 0; 0; 1; 0; 0; 1; 0; 1] (start two)
                     (fst (prepare first_run disk)))));
      vm_compute; reflexivity.
  - apply (proj1 (workspace_released_then_destroyed
                    first_run [0] [0; 0; 0; 0; 0] stray disk
                    (VObject [("main",
                               VObject [("../../../tmp/pkg-AbCdEf/x",
                                         VString "abc123")])])
                    (VObject [])
                    eq_refl eq_refl eq_refl)
             (fst (prepare first_run disk)) ["tmp"; "pkg-AbCdEf"]
             (fst (run first_run ["tmp"; "pkg-AbCdEf"]
                     (distDir (rootDir first_run))
                     [0; 0; 0; 0; 0] (start stray)
                     (fst (prepare first_run disk))))
             (snd (run first_run ["tmp"; "pkg-AbCdEf"]
                     (distDir (rootDir first_run))
                     [0; 0; 0; 0; 0] (start stray)
                     (fst (prepare first_run disk)))));
      vm_compute; reflexivity.
Defined.

End WorkspaceClaims.

(** ** Claims on the Output Artifacts and the manifest file *)

Module ManifestClaims.
Import JS Config Oracle Sys Pipeline Detector.
Import MetaFacts PipelineFacts FilesFacts Scenario.










(** The scenario of the specification: one source [o/r1] at [main], the
    oracle names [abc123], nothing published yet.  The run writes
    [/repo/dist/main/r1.json] and the manifest [/repo/dist/meta.json]. *)
Example scenario_first_run :
  let w' := fst (build first_run [0] [0; 0; 0; 0; 0] one disk) in
  snd (build first_run [0] [0; 0; 0; 0; 0] one disk) = Settled (Normal tt) /\
  map (fun e => path_string (fst e)) (files w')
  = ["/repo/dist/main/r1.json"; "/repo/dist/meta.json"] /\
  JSON_stringify (VObject [("main", VObject [("r1", VString "abc123")])]) 2
  = Some (String.concat newline
            ["{";
             ("  " ++ dquote ++ "main" ++ dquote ++ ": {")%string;
             ("    " ++ dquote ++ "r1" ++ dquote ++ ": "
                     ++ dquote ++ "abc123" ++ dquote)%string;
             "  }";
             "}"]) /\
  In (["repo"; "dist"; "meta.json"],
      match JSON_stringify
              (VObject [("main", VObject [("r1", VString "abc123")])]) 2 with
      | Some text => text
      | None => EmptyString
      end) (files w').
Proof.
  cbv zeta. repeat split. vm_compute. tauto.
Qed.

End ManifestClaims.

(** ** More on the Change Detector *)

Module DetectorExtras.
Import JS Detector AssocFacts DetectorFacts DetectorSpec.

(** X1.  On two well-formed manifests, outside the one configuration in
    which the first maps [__proto__] to an empty record and the second has
    no own [__proto__], [deepEqual] answers [true] exactly when the two have
    the same key sets at both levels and the same leaves. *)
Theorem deepEqual_decides_same_meta (A B : Meta) :
  wf_meta A -> wf_meta B -> ~ proto_trap A B ->
  (deepEqual (meta_value A) (meta_value B) = Normal true <-> same_meta A B).
Proof.
  intros HA HB Ht. rewrite deepEqual_meta. split.
  - intros [= H]. now apply (meta_eqb_spec A B HA HB Ht).
  - intros H. apply (meta_eqb_spec A B HA HB Ht) in H. now rewrite H.
Qed.

Lemma deepEqual_decides_same_meta_witness :
  let A : Meta := [("main", [("r1", "abc123"); ("r2", "def456")])] in
  let B : Meta := [("main", [("r2", "def456"); ("r1", "abc123")])] in
  deepEqual (meta_value A) (meta_value B) = Normal true <-> same_meta A B.
Proof.
  cbv zeta. apply deepEqual_decides_same_meta.
  - split; simpl.
    + constructor; [simpl; tauto | constructor].
    + constructor; [|constructor]. unfold wf_branch. simpl.
      constructor; [simpl; intros [H|[]]; discriminate H|].
      constructor; [simpl; tauto | constructor].
  - split; simpl.
    + constructor; [simpl; tauto | constructor].
    + constructor; [|constructor]. unfold wf_branch. simpl.
      constructor; [simpl; intros [H|[]]; discriminate H|].
      constructor; [simpl; tauto | constructor].
  - intros [H _]. discriminate H.
Defined.

Lemma assoc_Permutation {A} (l l' : list (string * A)) k :
  NoDup (keys l) -> Permutation l l' -> assoc l k = assoc l' k.
Proof.
  intros Hnd Hp.
  assert (Hnd' : NoDup (keys l')).
  { eapply Permutation_NoDup; [|exact Hnd]. now apply Permutation_map. }
  destruct (assoc l k) as [v|] eqn:E.
  - symmetry. apply In_assoc; trivial.
    eapply Permutation_in; [exact Hp|]. now apply assoc_In.
  - symmetry. apply assoc_None. apply assoc_None in E. intros Hin. apply E.
    eapply Permutation_in; [|exact Hin].
    symmetry. now apply Permutation_map.
Qed.

(** X2.  The order of the keys does not matter: a well-formed manifest is
    [deepEqual] to every reordering of its branch records, and so to
    itself. *)
Theorem deepEqual_ignores_key_order (A B : Meta) :
  wf_meta A -> Permutation A B ->
  deepEqual (meta_value A) (meta_value B) = Normal true.
Proof.
  intros HA Hp.
  assert (HB : wf_meta B).
  { destruct HA as [Hk Hb]. split.
    - eapply Permutation_NoDup; [|exact Hk]. now apply Permutation_map.
    - eapply Permutation_Forall; eauto. }
  apply deepEqual_decides_same_meta; trivial.
  - intros [H1 H2]. rewrite (assoc_Permutation A B _ (proj1 HA) Hp) in H1.
    congruence.
  - intros branch. rewrite <- (assoc_Permutation A B branch (proj1 HA) Hp).
    destruct (assoc A branch); [intros name; reflexivity | exact I].
Qed.

Lemma deepEqual_ignores_key_order_witness :
  deepEqual
    (meta_value [("master", [("sdk", "a1")]); ("develop", [("sdk", "b2")])])
    (meta_value [("develop", [("sdk", "b2")]); ("master", [("sdk", "a1")])])
  = Normal true.
Proof.
  apply deepEqual_ignores_key_order.
  - split; simpl.
    + constructor; [simpl; intros [H|[]]; discriminate H|].
      constructor; [simpl; tauto | constructor].
    + repeat constructor; simpl; tauto.
  - apply perm_swap.
Defined.

Lemma null_free_own ps k v :
  null_free (VObject ps) -> own ps k = Some v -> null_free v.
Proof.
  induction ps as [|[k' x] ps IH]; simpl; [discriminate|].
  intros [Hx Hps]. destruct (String.eqb k k').
  - now intros [= <-].
  - now apply IH.
Qed.

Lemma null_free_inherited k : null_free (inherited k).
Proof.
  unfold inherited. destruct (String.eqb k "__proto__"); [exact I|].
  destruct (mem k prototype_methods); exact I.
Qed.

(** The loop does not throw when no comparison in it does. *)
Lemma forKeys_returns pa pb :
  null_free (VObject pb) ->
  (forall k x, In (k, x) pa ->
               forall y, null_free y -> exists r, deepEqual x y = Normal r) ->
  exists r, forKeys pa (VObject pb) = Normal r.
Proof.
  intros Hb. induction pa as [|[k x] pa IH]; intros Hall.
  - now exists true.
  - cbn [forKeys get bind].
    assert (Hy : exists y, (match own pb k with
                            | Some v => Normal v
                            | None => Normal (inherited k)
                            end) = Normal y /\ null_free y).
    { destruct (own pb k) as [v|] eqn:E.
      - exists v. split; trivial. now apply (null_free_own pb k).
      - exists (inherited k). split; trivial. apply null_free_inherited. }
    destruct Hy as [y [-> Hy]]. cbn [bind].
    destruct (Hall k x (or_introl eq_refl) y Hy) as [r ->]. cbn [bind].
    destruct r; simpl.
    + apply IH. intros k' x' Hin. apply (Hall k' x'). now right.
    + now exists false.
Qed.

(** X3.  [deepEqual] throws only on [null]: on two values that hold no
    [null] at any depth it returns a boolean. *)
Theorem deepEqual_returns_without_null :
  forall a b : value,
    null_free a -> null_free b -> exists r, deepEqual a b = Normal r.
Proof.
  fix IH 1. intros a b Ha Hb.
  assert (Hret : forall c : bool,
             exists r, (if c then Normal false else Normal true) = Normal r).
  { intros c. destruct c; eauto. }
  destruct a as [| |x|s|f| |pa].
  - destruct b; simpl; eauto.
  - destruct Ha.
  - destruct b; simpl; eauto.
  - rewrite deepEqual_string. eauto.
  - destruct b; simpl; eauto.
  - destruct b; simpl; eauto. destruct Hb.
  - rewrite deepEqual_object.
    destruct b as [| |x|s|f| |pb]; simpl; eauto.
    + destruct Hb.
    + destruct pa as [|[k0 x0] pa]; simpl; eauto.
    + destruct (negb _); eauto.
      apply forKeys_returns; trivial.
      clear Hb pb. induction pa as [|[k0 x0] pa IHpa]; intros k x Hin.
      * destruct Hin.
      * destruct Ha as [Hx Hpa]. destruct Hin as [E|Hin].
        -- injection E as <- <-. intros y Hy. now apply IH.
        -- now apply (IHpa Hpa k x).
Qed.

Lemma deepEqual_returns_without_null_witness :
  exists r,
    deepEqual (VObject [("main", VObject [("r1", VString "abc123")])])
              (VObject [("main", VBool true)]) = Normal r.
Proof.
  apply deepEqual_returns_without_null; simpl; tauto.
Defined.

Lemma same_meta_sym (A B : Meta) : same_meta A B -> same_meta B A.
Proof.
  intros H branch. specialize (H branch).
  destruct (assoc A branch), (assoc B branch); trivial.
  intros name. symmetry. apply H.
Qed.

(** X15.  On well-formed manifests [deepEqual] gives the same answer in
    both directions, as long as neither manifest maps [__proto__] to an
    empty record that the other lacks: which of the published and the
    resolved manifest comes first does not matter. *)
Theorem deepEqual_symmetric (A B : Meta) :
  wf_meta A -> wf_meta B -> ~ proto_trap A B -> ~ proto_trap B A ->
  deepEqual (meta_value A) (meta_value B)
  = deepEqual (meta_value B) (meta_value A).
Proof.
  intros HA HB Hab Hba. rewrite !deepEqual_meta. f_equal.
  pose proof (meta_eqb_spec A B HA HB Hab) as H1.
  pose proof (meta_eqb_spec B A HB HA Hba) as H2.
  destruct (meta_eqb A B) eqn:E1, (meta_eqb B A) eqn:E2; trivial.
  - assert (H : same_meta B A) by (apply same_meta_sym; now apply H1).
    apply H2 in H. discriminate.
  - assert (H : same_meta A B) by (apply same_meta_sym; now apply H2).
    apply H1 in H. discriminate.
Qed.

Lemma deepEqual_symmetric_witness :
  deepEqual (meta_value [("main", [("r1", "abc123")])])
            (meta_value [("main", [("r1", "def456")])])
  = deepEqual (meta_value [("main", [("r1", "def456")])])
              (meta_value [("main", [("r1", "abc123")])]).
Proof.
  assert (Hwf : forall v : string, wf_meta [("main", [("r1", v)])]).
  { intros v. split; simpl.
    - constructor; [simpl; tauto | constructor].
    - constructor; [|constructor]. unfold wf_branch. simpl.
      constructor; [simpl; tauto | constructor]. }
  apply deepEqual_symmetric; try apply Hwf; intros [H _]; discriminate H.
Defined.

End DetectorExtras.

(** ** More on resolution *)

Module OracleExtras.
Import JS Config Oracle Sys JSFacts OracleFacts MetaFacts Scenario.

(** X4.  What [fetchSHA] makes of a 200 answer depends on the body alone:
    a body that is not JSON rejects with the parse error; a JSON object
    without a [commit] property, and a [null] body, make the read of
    [j.commit.sha] throw a [TypeError]; a [commit] object gives its [sha], and
    [undefined] when it has none.  None of these is the "Failed to fetch"
    error of a status other than 200. *)
Theorem fetchSHA_reads_commit_sha (fetch : remote) (s : ConfigSource) :
  (fetch (sha_url s) = Response 200 None ->
   fetchSHA fetch s = Throw SyntaxError) /\
  (fetch (sha_url s) = Response 200 (Some VNull) ->
   fetchSHA fetch s = Throw TypeError) /\
  (forall ps,
      fetch (sha_url s) = Response 200 (Some (VObject ps)) ->
      own ps "commit" = None ->
      fetchSHA fetch s = Throw TypeError) /\
  (forall ps cs,
      fetch (sha_url s) = Response 200 (Some (VObject ps)) ->
      own ps "commit" = Some (VObject cs) ->
      fetchSHA fetch s =
      Normal (match own cs "sha" with Some v => v | None => VUndefined end)).
Proof.
  unfold fetchSHA. repeat split.
  - intros H. now rewrite H.
  - intros H. now rewrite H.
  - intros ps H Hc. rewrite H. simpl. now rewrite Hc.
  - intros ps cs H Hc. rewrite H. simpl. rewrite Hc. simpl.
    now destruct (own cs "sha").
Qed.

Lemma fetchSHA_reads_commit_sha_witness :
  fetchSHA (fun _ => Response 200 (Some (VObject [("name", VString "main")])))
           (source "o" "r1" "main") = Throw TypeError /\
  fetchSHA (fetch first_run) (source "o" "r1" "main") = Normal (VString "abc123").
Proof.
  split.
  - apply (proj1 (proj2 (proj2 (fetchSHA_reads_commit_sha
             (fun _ => Response 200 (Some (VObject [("name", VString "main")])))
             (source "o" "r1" "main")))) [("name", VString "main")]);
      reflexivity.
  - apply (proj2 (proj2 (proj2 (fetchSHA_reads_commit_sha
             (fetch first_run) (source "o" "r1" "main"))))
             [("name", VString "b");
              ("commit", VObject [("sha", VString "abc123")])]
             [("sha", VString "abc123")]); reflexivity.
Defined.

Lemma install_all_length st l :
  List.length (snd (install_all st l)) = List.length l.
Proof.
  rewrite <- (install_all_fst st l) at 2. now rewrite length_map.
Qed.

(** The fan-out is not fulfilled while an answer is outstanding. *)
Lemma deliver_waits fetch tasks i order :
  i < List.length tasks ->
  forall settled st,
    NoDup settled ->
    (forall j, In j settled -> j < List.length tasks) ->
    ~ In i settled -> ~ In i order ->
    forall st', deliver fetch tasks order settled st <> Settled (Normal st').
Proof.
  intros Hi. induction order as [|j order IH];
    intros settled st Hnd Hlt Hns Hno st'; simpl.
  - destruct (Nat.eqb_spec (List.length settled) (List.length tasks)) as [E|E];
      [|discriminate].
    exfalso. apply Hns.
    assert (Hincl : incl (seq 0 (List.length tasks)) settled).
    { apply NoDup_length_incl; trivial.
      - rewrite length_seq. lia.
      - intros j Hj. apply in_seq. specialize (Hlt _ Hj). lia. }
    apply Hincl. apply in_seq. lia.
  - assert (Hij : i <> j) by (intros ->; apply Hno; now left).
    assert (Hno' : ~ In i order) by (intros H; apply Hno; now right).
    destruct (existsb (Nat.eqb j) settled) eqn:Ej; [now apply IH|].
    destruct (nth_error tasks j) as [[s b]|] eqn:Et; [|now apply IH].
    destruct (fetchSHA fetch s); [|discriminate].
    apply IH; trivial.
    + constructor; trivial. intros H. apply existsb_eqb_In in H. congruence.
    + intros k [<-|Hk]; [|auto]. apply nth_error_Some. congruence.
    + intros [E|E]; [congruence | tauto].
Qed.

(** X5.  [fetchLatestMeta] is not fulfilled before every lookup has
    answered: while the answer for one source is outstanding, it has
    returned no manifest, whatever the other answers were; it is pending or,
    when one of the answers delivered was a failure, rejected. *)
Theorem fetchLatestMeta_waits_for_every_lookup fetch order (c : Config) i :
  i < List.length (sources c) ->
  ~ In i order ->
  fetchLatestMeta fetch order c = Pending \/
  exists e, fetchLatestMeta fetch order c = Settled (Throw e).
Proof.
  intros Hi Hno. unfold fetchLatestMeta.
  pose proof (install_all_length {| m := []; elsewhere := [] |} (sources c))
    as Hlen.
  destruct (install_all _ (sources c)) as [st tasks]. simpl in Hlen.
  pose proof (deliver_waits fetch tasks i order) as Hw.
  rewrite Hlen in Hw. specialize (Hw Hi [] st).
  destruct (deliver fetch tasks order [] st) as [[st'|e]|] eqn:Ed; eauto.
  exfalso. apply (Hw (NoDup_nil _)) with (st' := st'); simpl; tauto.
Qed.

Lemma fetchLatestMeta_waits_witness :
  fetchLatestMeta (fetch first_run) [0] two = Pending \/
  exists e, fetchLatestMeta (fetch first_run) [0] two = Settled (Throw e).
Proof.
  apply (fetchLatestMeta_waits_for_every_lookup (fetch first_run) [0] two 1).
  - simpl. lia.
  - simpl. lia.
Defined.

Lemma install_only_ordinary l st s :
  In s l -> only_ordinary l (m st) ->
  only_ordinary l (m (fst (install st s))) /\
  target_of l (s, snd (install st s)).
Proof.
  intros Hs Hinv. unfold install, target_of.
  destruct (own (m st) (s_branch s)) as [x|] eqn:E.
  - destruct (Hinv _ _ E) as (_ & _ & r & -> & _). simpl. auto.
  - destruct (inherited (s_branch s)) eqn:Ei; simpl; eauto.
    split; [|auto].
    pose proof (ordinary_branch_not_proto _ Ei) as Hnp.
    intros br x. rewrite own_set by trivial.
    destruct (String.eqb_spec br (s_branch s)) as [->|Hne].
    + intros [= <-]. split; [trivial|]. split; [now apply in_map|].
      exists []. split; trivial. intros nm H. now elim H.
    + apply Hinv.
Qed.

Lemma install_all_only_ordinary l :
  forall l0 st,
    incl l0 l -> only_ordinary l (m st) ->
    only_ordinary l (m (fst (install_all st l0))) /\
    Forall (target_of l) (snd (install_all st l0)).
Proof.
  induction l0 as [|s l0 IH]; intros st Hincl Hinv; simpl.
  - auto.
  - destruct (install_only_ordinary l st s (Hincl s (or_introl eq_refl)) Hinv)
      as [H1 Ht].
    destruct (install st s) as [st1 b]. simpl in H1, Ht.
    destruct (IH st1 (fun x H => Hincl x (or_intror H)) H1) as [H2 Hts].
    destruct (install_all st1 l0) as [st2 bs]. simpl in *. auto.
Qed.

Lemma assign_only_ordinary l st s b v :
  target_of l (s, b) -> only_ordinary l (m st) ->
  only_ordinary l (m (assign st b (s_name s) v)).
Proof.
  intros [Hs [Hb|[o Hb]]] Hinv; simpl in Hs, Hb; subst b; simpl; trivial.
  destruct (own (m st) (s_branch s)) as [[| | | | | |r]|] eqn:E; trivial.
  simpl. intros br x. rewrite own_replace_own.
  destruct (String.eqb_spec br (s_branch s)) as [->|Hne]; [|apply Hinv].
  rewrite E. intros [= <-].
  destruct (Hinv _ _ E) as (Ho & Hin & r' & [= <-] & Hr).
  split; trivial. split; trivial. eexists. split; [reflexivity|].
  intros nm. unfold set.
  destruct (String.eqb_spec (s_name s) "__proto__") as [Ep|Ep]; [apply Hr|].
  assert (Hset : own (set r (s_name s) v) nm
                 = if String.eqb nm (s_name s) then Some v else own r nm)
    by now apply own_set.
  unfold set in Hset. apply String.eqb_neq in Ep. rewrite Ep in Hset.
  rewrite Hset. destruct (String.eqb_spec nm (s_name s)) as [->|Hn].
  - intros _. split; [now apply String.eqb_neq | now apply in_map].
  - apply Hr.
Qed.

Lemma deliver_only_ordinary fetch l tasks order :
  Forall (target_of l) tasks ->
  forall settled st st',
    only_ordinary l (m st) ->
    deliver fetch tasks order settled st = Settled (Normal st') ->
    only_ordinary l (m st').
Proof.
  intros Ht. induction order as [|j order IH]; intros settled st st' Hinv; simpl.
  - destruct (Nat.eqb _ _); [|discriminate]. now intros [= <-].
  - destruct (existsb (Nat.eqb j) settled); [now apply IH|].
    destruct (nth_error tasks j) as [[s b]|] eqn:Et; [|now apply IH].
    destruct (fetchSHA fetch s) as [v|e]; [|discriminate].
    apply IH. apply assign_only_ordinary; trivial.
    rewrite Forall_forall in Ht. apply Ht. eapply nth_error_In; eauto.
Qed.

(** X6.  Whatever the configuration and the answers, the manifest
    [fetchLatestMeta] returns has no key that names a property of
    [Object.prototype], and no repository key [__proto__]: every branch key
    is the branch of a source and maps to a record, every key of a record is
    a repository name of the configuration.  A source on a branch such as
    [constructor] or [__proto__], or with the repository name [__proto__], is
    therefore missing from the manifest. *)
Theorem fetchLatestMeta_keys_are_ordinary fetch order (c : Config) ps :
  fetchLatestMeta fetch order c = Settled (Normal (VObject ps)) ->
  only_ordinary (sources c) ps.
Proof.
  unfold fetchLatestMeta.
  destruct (install_all_only_ordinary (sources c) (sources c)
              {| m := []; elsewhere := [] |}) as [H0 Ht].
  { apply incl_refl. }
  { intros br x H. discriminate H. }
  destruct (install_all _ (sources c)) as [st tasks]. simpl in *.
  destruct (deliver fetch tasks order [] st) as [[st'|e]|] eqn:Ed;
    try discriminate.
  intros [= <-]. eapply deliver_only_ordinary; eauto.
Qed.

Lemma fetchLatestMeta_keys_are_ordinary_witness :
  fetchLatestMeta (fetch first_run) [0; 1]
    (with_sources [source "o" "r1" "constructor"; source "o" "r1" "main"])
  = Settled (Normal (VObject [("main", VObject [("r1", VString "abc123")])])) /\
  only_ordinary
    (sources (with_sources [source "o" "r1" "constructor";
                            source "o" "r1" "main"]))
    [("main", VObject [("r1", VString "abc123")])].
Proof.
  split; [reflexivity|].
  apply (fetchLatestMeta_keys_are_ordinary (fetch first_run) [0; 1]).
  reflexivity.
Defined.

(** X7.  The manifest does not depend on the order in which the lookups
    answer: for a configuration as in [fetchLatestMeta_resolves], two
    orders that deliver every answer give manifests with the same branch
    keys and the same leaf under every branch and repository name. *)
Theorem fetchLatestMeta_order_independent fetch order1 order2 (c : Config) :
  NoDup (map slot (sources c)) ->
  (forall s, In s (sources c) -> ordinary s) ->
  (forall s, In s (sources c) -> exists v, fetchSHA fetch s = Normal v) ->
  (forall i, i < List.length (sources c) -> In i order1) ->
  (forall i, i < List.length (sources c) -> In i order2) ->
  exists ps1 ps2,
    fetchLatestMeta fetch order1 c = Settled (Normal (VObject ps1)) /\
    fetchLatestMeta fetch order2 c = Settled (Normal (VObject ps2)) /\
    (forall br, own ps1 br = None <-> own ps2 br = None) /\
    (forall br nm, cell ps1 br nm = cell ps2 br nm).
Proof.
  intros Hslots Hord Hok H1 H2.
  destruct (fetchLatestMeta_resolves fetch order1 c Hslots Hord Hok H1)
    as [ps1 [set1 [E1 [(A1 & A2 & A3 & _) Hall1]]]].
  destruct (fetchLatestMeta_resolves fetch order2 c Hslots Hord Hok H2)
    as [ps2 [set2 [E2 [(B1 & B2 & B3 & _) Hall2]]]].
  exists ps1, ps2. repeat split; trivial.
  - intros H.
    destruct (in_dec string_dec br (map s_branch (sources c))) as [Hb|Hb];
      [|now apply B2].
    destruct (A1 _ Hb) as [r Hr]. congruence.
  - intros H.
    destruct (in_dec string_dec br (map s_branch (sources c))) as [Hb|Hb];
      [|now apply A2].
    destruct (B1 _ Hb) as [r Hr]. congruence.
  - intros br nm.
    assert (Hsame : forall v, cell ps1 br nm = Some v <-> cell ps2 br nm = Some v).
    { intros v. rewrite A3, B3. split; intros (i & s & _ & Hi & H);
        exists i, s; (split; [|auto]).
      - apply Hall2. apply nth_error_Some. congruence.
      - apply Hall1. apply nth_error_Some. congruence. }
    destruct (cell ps1 br nm) as [v|] eqn:Ec.
    + symmetry. now apply Hsame.
    + destruct (cell ps2 br nm) as [v|] eqn:Ec2; trivial.
      discriminate (proj2 (Hsame v) eq_refl).
Qed.

Lemma fetchLatestMeta_order_independent_witness :
  exists ps1 ps2,
    fetchLatestMeta (fetch first_run) [0; 1] two = Settled (Normal (VObject ps1)) /\
    fetchLatestMeta (fetch first_run) [1; 0] two = Settled (Normal (VObject ps2)) /\
    (forall br, own ps1 br = None <-> own ps2 br = None) /\
    (forall br nm, cell ps1 br nm = cell ps2 br nm).
Proof.
  apply (fetchLatestMeta_order_independent (fetch first_run) [0; 1] [1; 0] two).
  - simpl. constructor; [|constructor; [|constructor]]; simpl.
    + intros [H|[]]. discriminate H.
    + tauto.
  - intros s [<-|[<-|[]]]; (split; [reflexivity | discriminate]).
  - intros s [<-|[<-|[]]]; eexists; reflexivity.
  - simpl. intros i Hi. lia.
  - simpl. intros i Hi. lia.
Defined.

End OracleExtras.

(** ** More on the pipeline *)

Module PipelineExtras.
Import JS Config Oracle Sys Pipeline Detector PipelineFacts DetectorFacts
       Scenario.

Lemma subseq_refl {A} (l : list A) : subseq l l.
Proof.
  induction l; [apply subseq_nil | now apply subseq_take].
Qed.

Lemma subseq_app {A} (a b l e : list A) :
  subseq a l -> subseq b e -> subseq (a ++ b) (l ++ e).
Proof.
  induction 1 as [l|x l1 l2 _ IH|x l1 l2 _ IH]; intros Hb; simpl.
  - induction l; simpl; [trivial | now apply subseq_skip].
  - apply subseq_skip. now apply IH.
  - apply subseq_take. now apply IH.
Qed.

Lemma subseq_grows {A} (a l l' : list A) : subseq a l -> subseq a (l ++ l').
Proof.
  intros H. rewrite <- (app_nil_r a). apply subseq_app; trivial.
  apply subseq_nil.
Qed.

Lemma subseq_after {A} (a l0 l : list A) : subseq a l -> subseq a (l0 ++ l).
Proof.
  intros H. induction l0; simpl; [trivial | now apply subseq_skip].
Qed.

Lemma in_order_resume E td dd s g w w' g' l :
  resume E td dd s g w = (w', g') ->
  in_order E td dd s g l ->
  in_order E td dd s g'
    (l ++ emitted E td dd s g (negb (is_rejected g'))).
Proof.
  intros Hr HP. unfold in_order in *.
  destruct (is_rejected g') eqn:Erej.
  - destruct g'; try discriminate. simpl. apply subseq_nil.
  - pose proof (resume_follows _ _ _ _ _ _ _ _ Hr Erej) as Hf.
    simpl negb.
    destruct g; simpl in Hf.
    + subst g'. apply (subseq_app [] _ _ _ HP). apply subseq_refl.
    + assert (Hstep : subseq (firstn 2 (own_calls E td dd s))
                        (l ++ emitted E td dd s AwaitCloneRepo true)).
      { apply (subseq_app [_] [_] _ _ HP). apply subseq_refl. }
      destruct Hf; subst g'; exact Hstep.
    + subst g'. now apply subseq_grows.
    + subst g'.
      destruct (resume_generate_project _ _ _ _ _ _ _ Hr Erej) as [doc Hd].
      apply (subseq_app [_; _] [_; _] _ _ HP).
      unfold emitted, artifact_event, doc_of. rewrite Hd. apply subseq_refl.
    + subst g'. apply (subseq_app [_; _; _; _] [_] _ _ HP). apply subseq_refl.
    + subst g'. now apply subseq_grows.
    + subst g'. discriminate.
Qed.

(** The calls of every source occur in the log of a fan-out in program
    order, as far as its callback has come. *)
Lemma run_in_order E td dd sched c w w' f :
  run E td dd sched (start c) w = (w', f) ->
  exists l,
    log w' = log w ++ l /\
    Forall (fun t => in_order E td dd (fst t) (snd t) l) (tasks f).
Proof.
  intros Hrun.
  assert (Hbase : log w = log w ++ []) by now rewrite app_nil_r.
  destruct (run_per_source E td dd (in_order E td dd)
              (fun s g l l' H => subseq_grows _ l l' H)
              (in_order_resume E td dd)
              sched _ _ _ _ (log w) [] Hrun Hbase) as [l [Hl [Hall _]]].
  { unfold start. simpl. apply Forall_forall. intros t Ht.
    apply in_map_iff in Ht as [s [<- _]]. apply subseq_nil. }
  exists l. auto.
Qed.

(** A pipeline that ran to its end, whatever follows the [rmdir]. *)
Lemma pipeline_calls E sched c final w w' :
  let dd := distDir (rootDir E) in
  workspace_build E sched c final w = (w', Settled (Normal tt)) ->
  exists td w3 l,
    final dd w3 = (w', Settled (Normal tt)) /\
    log w3 = log w ++ l ++ [(fs_rmdir td, true)] /\
    Forall (fun ev => is_rmdir ev = false /\ is_writeFile ev = false) l /\
    (forall s, In s (sources c) -> subseq (own_calls E td dd s) l) /\
    (forall s, In s (sources c) ->
               before (fs_mkdir (st_of td s), true) (fs_rm (st_of td s), true) l) /\
    Permutation (filter is_artifact l) (map (artifact_event E td dd) (sources c)) /\
    is_dir w3 td = false.
Proof.
  intros dd H.
  apply workspace_build_fulfilled in H
    as (w1 & td & w2 & f & w3 & Hp & Hrun & Hf & Hall & Hrm & Hfin).
  fold dd in Hrun, Hfin.
  destruct (prepare_log _ _ _ _ Hp) as [l1 [Hl1 [Hk1 Htd]]].
  destruct (Htd td eq_refl) as [Htd0 _].
  destruct (run_sources_log _ _ _ _ _ _ _ _ Hrun)
    as [l2 [Hl2 [Hk2 [Hsrc [Hrr _]]]]].
  destruct (run_in_order _ _ _ _ _ _ _ _ Hrun) as [l2o [Hl2o Hord]].
  assert (l2o = l2) by (rewrite Hl2o in Hl2; now apply app_inv_head in Hl2).
  subst l2o.
  destruct (run_written E td dd sched _ _ _ _ (log w1) [] Hrun Hf) as
    [l2' [Hl2' [_ Hperm]]].
  { unfold unrejected, start. simpl. apply Forall_forall. intros t Ht.
    apply in_map_iff in Ht as [s [<- _]]. reflexivity. }
  { now rewrite app_nil_r. }
  { unfold start. simpl.
    assert (Hw0 : forall l0, written E td dd
                    (map (fun s => (s, AwaitMkdirSt)) l0) = []).
    { induction l0; simpl; trivial. }
    rewrite Hw0. constructor. }
  assert (l2' = l2) by (rewrite Hl2' in Hl2; now apply app_inv_head in Hl2).
  subst l2'.
  pose proof (rmdir_log _ _ _ _ _ Hrm) as Hl3. simpl in Hl3.
  exists td, w3, (l1 ++ l2).
  split; [exact Hfin|]. split; [|split; [|split; [|split; [|split]]]].
  - rewrite Hl3, Hl2, Hl1. now rewrite <- !app_assoc.
  - apply Forall_app. split.
    + eapply Forall_impl; [|exact Hk1]. intros ev Hev.
      apply setup_call_kinds in Hev. tauto.
    + eapply Forall_impl; [|exact Hk2]. intros ev Hev.
      now apply task_call_kinds in Hev.
  - intros s Hs. apply subseq_after.
    rewrite <- Hsrc in Hs. apply in_map_iff in Hs as [[s' g] [<- Hin]].
    rewrite Forall_forall in Hord. specialize (Hord _ Hin). simpl in *.
    now rewrite (all_fulfilled_stage _ _ _ Hall Hin) in Hord.
  - intros s Hs. apply before_after.
    rewrite <- Hsrc in Hs. apply in_map_iff in Hs as [[s' g] [<- Hin]].
    rewrite Forall_forall in Hrr. specialize (Hrr _ Hin). simpl in *.
    now rewrite (all_fulfilled_stage _ _ _ Hall Hin) in Hrr.
  - rewrite filter_app, (filter_none is_artifact l1).
    + simpl. rewrite (written_fulfilled _ _ _ _ Hall), Hsrc in Hperm. exact Hperm.
    + eapply Forall_impl; [|exact Hk1]. intros ev Hev.
      apply setup_call_kinds in Hev. tauto.
  - now apply (rmdir_removed E td w2).
Qed.

(** The calls of a pipeline are those of [prepare], of the sub-pipelines
    and of [rmdir], until [final] takes over. *)
Lemma workspace_build_log E sched c final w w' o :
  workspace_build E sched c final w = (w', o) ->
  exists w3 l,
    log w3 = log w ++ l /\
    Forall (fun ev => is_writeFile ev = false) l /\
    ((w3 = w' /\ o <> Settled (Normal tt)) \/
     final (distDir (rootDir E)) w3 = (w', o)).
Proof.
  unfold workspace_build.
  destruct (prepare E w) as [w1 r] eqn:Hp.
  destruct (prepare_log _ _ _ _ Hp) as [l1 [Hl1 [Hk1 _]]].
  assert (Hn1 : Forall (fun ev => is_writeFile ev = false) l1).
  { eapply Forall_impl; [|exact Hk1]. intros ev H.
    apply setup_call_kinds in H. tauto. }
  destruct r as [td|e].
  2:{ intros [= <- <-]. exists w1, l1. repeat split; trivial.
      left. split; [trivial | discriminate]. }
  destruct (run E td _ sched (start c) w1) as [w2 f] eqn:Hrun.
  destruct (run_task_calls _ _ _ _ _ _ _ _ Hrun) as [l2 [Hl2 Hk2]].
  assert (Hn2 : Forall (fun ev => is_writeFile ev = false) (l1 ++ l2)).
  { apply Forall_app. split; trivial.
    eapply Forall_impl; [|exact Hk2]. intros ev H.
    now apply task_call_kinds in H. }
  assert (Hl12 : log w2 = log w ++ l1 ++ l2).
  { rewrite Hl2, Hl1. now rewrite app_assoc. }
  destruct (settle f) as [[[]|e]|].
  - destruct (rmdir E td w2) as [w3 r3] eqn:Hrm.
    pose proof (rmdir_log _ _ _ _ _ Hrm) as Hl3.
    assert (Hn3 : Forall (fun ev => is_writeFile ev = false)
                    ((l1 ++ l2) ++ [(fs_rmdir td, is_normal r3)])).
    { apply Forall_app. split; trivial. repeat constructor. }
    assert (Hl123 : log w3 = log w ++ (l1 ++ l2) ++ [(fs_rmdir td, is_normal r3)]).
    { rewrite Hl3, Hl12. now rewrite <- !app_assoc. }
    destruct r3 as [[]|e].
    + intros H. exists w3. eexists. split; [exact Hl123|]. split; trivial.
      now right.
    + intros [= <- <-]. exists w3. eexists. split; [exact Hl123|].
      split; trivial. left. split; [trivial | discriminate].
  - intros [= <- <-]. exists w2, (l1 ++ l2). repeat split; trivial.
    left. split; [trivial | discriminate].
  - intros [= <- <-]. exists w2, (l1 ++ l2). repeat split; trivial.
    left. split; [trivial | discriminate].
Qed.

(** X8.  The variant without a manifest never calls [writeFile]; when it
    is fulfilled, the artifact writes in its log are, one for one, those of
    the sources, every subdirectory was reserved and later released, and
    the one [rmdir], its last call, removed the workspace root. *)
Theorem build_plain_rebuilds_without_manifest E sched c w w' o :
  let dd := distDir (rootDir E) in
  build_plain E sched c w = (w', o) ->
  (exists l, log w' = log w ++ l /\
             Forall (fun ev => is_writeFile ev = false) l) /\
  (o = Settled (Normal tt) ->
   exists td l,
     log w' = log w ++ l ++ [(fs_rmdir td, true)] /\
     Forall (fun ev => is_rmdir ev = false) l /\
     Permutation (filter is_artifact l)
                 (map (artifact_event E td dd) (sources c)) /\
     (forall s, In s (sources c) ->
                before (fs_mkdir (st_of td s), true)
                       (fs_rm (st_of td s), true) l) /\
     is_dir w' td = false).
Proof.
  intros dd H. unfold build_plain in H. split.
  - destruct (workspace_build_log _ _ _ _ _ _ _ H)
      as (w3 & l & Hl & Hk & [[-> _]|Hfin]).
    + now exists l.
    + unfold finish, ret in Hfin. injection Hfin as <- _. now exists l.
  - intros ->.
    destruct (pipeline_calls _ _ _ _ _ _ H)
      as (td & w3 & l & Hfin & Hl & Hk & _ & Hrr & Hperm & Hgone).
    unfold finish, ret in Hfin. injection Hfin as <-.
    exists td, l. repeat split; trivial.
    eapply Forall_impl; [|exact Hk]. simpl. tauto.
Qed.

Lemma build_plain_rebuilds_without_manifest_witness :
  let sched := [1; 1; 0; 0; 1; 0; 0; 1; 0; 1] in
  let dd := distDir (rootDir first_run) in
  let w' := fst (build_plain first_run sched two disk) in
  exists td l,
    log w' = log disk ++ l ++ [(fs_rmdir td, true)] /\
    Forall (fun ev => is_rmdir ev = false) l /\
    Permutation (filter is_artifact l)
                (map (artifact_event first_run td dd) (sources two)) /\
    (forall s, In s (sources two) ->
               before (fs_mkdir (st_of td s), true)
                      (fs_rm (st_of td s), true) l) /\
    is_dir w' td = false.
Proof.
  cbv zeta.
  apply (proj2 (build_plain_rebuilds_without_manifest
                  first_run [1; 1; 0; 0; 1; 0; 0; 1; 0; 1] two disk
                  (fst (build_plain first_run [1; 1; 0; 0; 1; 0; 0; 1; 0; 1]
                          two disk))
                  (Settled (Normal tt))
                  ltac:(vm_compute; reflexivity))).
  reflexivity.
Defined.

(** X9.  In a fulfilled run of the [build] of makefile.js the calls of
    every source occur in program order ([mkdir(st)], the clone, the
    extractor's bootstrap, the artifact write, [rm(st)]) and before the
    [rmdir] of the workspace root, which is followed by the manifest write:
    no source is cloned before its subdirectory is reserved, none extracted
    before its clone has closed, and the root is removed after the last
    release. *)
Theorem build_always_calls_in_order E order sched c w w' latest :
  let dd := distDir (rootDir E) in
  fetchLatestMeta (fetch E) order c = Settled (Normal latest) ->
  build_always E order sched c w = (w', Settled (Normal tt)) ->
  exists td text l,
    JSON_stringify latest 2 = Some text /\
    log w' = log w ++ l /\
    forall s, In s (sources c) ->
      subseq (own_calls E td dd s
              ++ [(fs_rmdir td, true);
                  (fs_writeFile (join dd (file (meta c))) text, true)]) l.
Proof.
  intros dd Hl. rewrite (build_always_rebuilds _ _ _ _ _ _ Hl). intros H.
  destruct (pipeline_calls _ _ _ _ _ _ H)
    as (td & w3 & l & Hfin & Hlog & _ & Hord & _).
  fold dd in Hfin. unfold finish in Hfin.
  destruct (writeMeta E c dd latest w3) as [w4 r] eqn:Hw.
  injection Hfin as <- ->.
  destruct (writeMeta_spec _ _ _ _ _ _ _ Hw)
    as [_ [(_ & _ & [=])|(text & Htext & Hl4 & _)]].
  simpl in Hl4.
  exists td, text,
    (l ++ [(fs_rmdir td, true);
           (fs_writeFile (join dd (file (meta c))) text, true)]).
  split; [exact Htext|]. split.
  - rewrite Hl4, Hlog. now rewrite <- !app_assoc.
  - intros s Hs. apply subseq_app; [now apply Hord | apply subseq_refl].
Qed.

Lemma build_always_calls_in_order_witness :
  let sched := [1; 1; 0; 0; 1; 0; 0; 1; 0; 1] in
  let dd := distDir (rootDir first_run) in
  let latest := VObject [("main", VObject [("r1", VString "abc123")]);
                         ("develop", VObject [("r1", VString "abc123")])] in
  exists td text l,
    JSON_stringify latest 2 = Some text /\
    log (fst (build_always first_run [0; 1] sched two disk)) = log disk ++ l /\
    forall s, In s (sources two) ->
      subseq (own_calls first_run td dd s
              ++ [(fs_rmdir td, true);
                  (fs_writeFile (join dd (file (meta two))) text, true)]) l.
Proof.
  cbv zeta.
  apply (build_always_calls_in_order
           first_run [0; 1] [1; 1; 0; 0; 1; 0; 0; 1; 0; 1] two disk);
    vm_compute; reflexivity.
Defined.

(** X10.  The variants of [build] are refinements of one another.  Once
    resolution has succeeded, the [build] of makefile.js is the [build]
    without a manifest followed, when that one is fulfilled, by [writeMeta];
    and the change-detection [build], when [deepEqual] finds a difference,
    is the [build] of makefile.js. *)
Theorem build_variants_agree E order sched c w latest :
  fetchLatestMeta (fetch E) order c = Settled (Normal latest) ->
  build_always E order sched c w =
    (match build_plain E sched c w with
     | (w1, Settled (Normal _)) =>
         finish (writeMeta E c (distDir (rootDir E)) latest) w1
     | (w1, o) => (w1, o)
     end) /\
  (forall current,
      fetchCurrentMeta (fetch E) c = Normal current ->
      deepEqual current latest = Normal false ->
      build E order sched c w = build_always E order sched c w).
Proof.
  intros Hl. split.
  - rewrite (build_always_rebuilds _ _ _ _ _ _ Hl).
    unfold build_plain, workspace_build.
    destruct (prepare E w) as [w1 [td|e]]; trivial.
    destruct (run E td _ sched (start c) w1) as [w2 f].
    destruct (settle f) as [[[]|e]|]; trivial.
    destruct (rmdir E td w2) as [w3 [[]|e]]; trivial.
  - intros current Hc Hd.
    now rewrite (build_rebuilds _ _ _ _ _ _ _ Hl Hc Hd),
                (build_always_rebuilds _ _ _ _ _ _ Hl).
Qed.

Lemma build_variants_agree_witness :
  let sched := [0; 0; 0; 0; 0] in
  build_always first_run [0] sched one disk =
    (match build_plain first_run sched one disk with
     | (w1, Settled (Normal _)) =>
         finish (writeMeta first_run one (distDir (rootDir first_run))
                   (VObject [("main", VObject [("r1", VString "abc123")])])) w1
     | (w1, o) => (w1, o)
     end) /\
  build first_run [0] sched one disk = build_always first_run [0] sched one disk.
Proof.
  cbv zeta.
  destruct (build_variants_agree first_run [0] [0; 0; 0; 0; 0] one disk
              (VObject [("main", VObject [("r1", VString "abc123")])])
              eq_refl) as [H1 H2].
  split; [exact H1|]. apply (H2 (VObject [])); reflexivity.
Defined.

Lemma deepEqual_empty_object ps :
  ps <> [] -> deepEqual (VObject []) (VObject ps) = Normal false.
Proof.
  intros H. rewrite deepEqual_object. simpl. now destruct ps.
Qed.

(** X11.  A first run builds: when the manifest request is answered with a
    status other than 200 and the resolved manifest has at least one
    branch, the change-detection [build] does not stop at "No updates" but
    behaves as the [build] of makefile.js. *)
Theorem build_first_run_rebuilds E order sched c w status body ps :
  fetch E (meta_url c) = Response status body ->
  status <> 200 ->
  fetchLatestMeta (fetch E) order c = Settled (Normal (VObject ps)) ->
  ps <> [] ->
  build E order sched c w = build_always E order sched c w.
Proof.
  intros Hr Hs Hl Hps.
  apply (proj2 (build_variants_agree E order sched c w _ Hl) (VObject [])).
  - unfold fetchCurrentMeta. rewrite Hr.
    apply Nat.eqb_neq in Hs. now rewrite Hs.
  - now apply deepEqual_empty_object.
Qed.

Lemma build_first_run_rebuilds_witness :
  build first_run [0] [0; 0; 0; 0; 0] one disk
  = build_always first_run [0] [0; 0; 0; 0; 0] one disk.
Proof.
  apply (build_first_run_rebuilds first_run [0] [0; 0; 0; 0; 0] one disk
           404 None [("main", VObject [("r1", VString "abc123")])]).
  - reflexivity.
  - lia.
  - reflexivity.
  - discriminate.
Defined.

Lemma deliver_no_tasks fetch order :
  forall st, deliver fetch [] order [] st = Settled (Normal st).
Proof.
  induction order as [|j order IH]; intros st; simpl; trivial.
  destruct j; simpl; apply IH.
Qed.

(** X12.  With no source configured, [fetchLatestMeta] returns the empty
    manifest at once, whatever answers arrive; and when the manifest
    request is then answered with a status other than 200, the
    change-detection [build] compares two empty mappings, prints
    "No updates" and does nothing else. *)
Theorem build_without_sources E order sched c w status body :
  sources c = [] ->
  fetch E (meta_url c) = Response status body ->
  status <> 200 ->
  fetchLatestMeta (fetch E) order c = Settled (Normal (VObject [])) /\
  build E order sched c w =
  ({| dirs := dirs w; files := files w;
      log := log w ++ [(stdout_line "info: No updates", true)] |},
   Settled (Normal tt)).
Proof.
  intros Hsrc Hr Hs.
  assert (Hl : fetchLatestMeta (fetch E) order c
               = Settled (Normal (VObject []))).
  { unfold fetchLatestMeta. rewrite Hsrc. simpl. now rewrite deliver_no_tasks. }
  split; trivial. unfold build. rewrite Hl.
  unfold fetchCurrentMeta. rewrite Hr.
  apply Nat.eqb_neq in Hs. rewrite Hs. reflexivity.
Qed.

Lemma build_without_sources_witness :
  fetchLatestMeta (fetch first_run) [3; 0] (with_sources [])
  = Settled (Normal (VObject [])) /\
  build first_run [3; 0] [0; 1] (with_sources []) disk =
  ({| dirs := dirs disk; files := files disk;
      log := log disk ++ [(stdout_line "info: No updates", true)] |},
   Settled (Normal tt)).
Proof.
  apply (build_without_sources first_run [3; 0] [0; 1] (with_sources []) disk
           404 None).
  - reflexivity.
  - reflexivity.
  - lia.
Defined.

Lemma run_app E td dd sched1 sched2 :
  forall f w,
    run E td dd (sched1 ++ sched2) f w =
    let '(w1, f1) := run E td dd sched1 f w in run E td dd sched2 f1 w1.
Proof.
  induction sched1 as [|i sched1 IH]; intros f w; simpl; trivial.
  destruct (resume_nth E td dd i (tasks f) w) as [[w1 l1] r]. apply IH.
Qed.

(** X13.  The first rejection wins: once the callback of a source has
    rejected [Promise.all] with a reason, the pipeline is rejected with
    that reason however the other callbacks go on afterwards, whether they
    are fulfilled or rejected with other reasons. *)
Theorem first_rejection_wins E sched1 sched2 c final w w1 td w2 f e :
  prepare E w = (w1, Normal td) ->
  run E td (distDir (rootDir E)) sched1 (start c) w1 = (w2, f) ->
  first f = Some e ->
  snd (workspace_build E (sched1 ++ sched2) c final w) = Settled (Throw e).
Proof.
  intros Hp Hrun Hf. unfold workspace_build. rewrite Hp, run_app, Hrun.
  destruct (run E td _ sched2 f w2) as [w3 f3] eqn:Hrun2.
  pose proof (run_first_sticky _ _ _ _ _ _ _ _ e Hrun2 Hf) as Hf3.
  unfold settle. now rewrite Hf3.
Qed.

Lemma first_rejection_wins_witness :
  snd (workspace_build no_git_for_develop ([1; 1] ++ [0; 0; 0; 0; 0]) two
         (fun _ => finish (ret tt)) disk)
  = Settled (Throw (SystemError "ENOENT")).
Proof.
  apply (first_rejection_wins no_git_for_develop [1; 1] [0; 0; 0; 0; 0] two
           (fun _ => finish (ret tt)) disk
           (fst (prepare no_git_for_develop disk)) ["tmp"; "pkg-AbCdEf"]
           (fst (run no_git_for_develop ["tmp"; "pkg-AbCdEf"]
                   (distDir (rootDir no_git_for_develop)) [1; 1] (start two)
                   (fst (prepare no_git_for_develop disk))))
           (snd (run no_git_for_develop ["tmp"; "pkg-AbCdEf"]
                   (distDir (rootDir no_git_for_develop)) [1; 1] (start two)
                   (fst (prepare no_git_for_develop disk)))));
    vm_compute; reflexivity.
Defined.

Lemma length_append (a b : string) :
  String.length (a ++ b) = String.length a + String.length b.
Proof.
  induction a as [|c a IH]; simpl; [trivial | now rewrite IH].
Qed.

Lemma append_inv_tail (a b s : string) :
  (a ++ s)%string = (b ++ s)%string -> a = b.
Proof.
  revert b. induction a as [|c a IH]; intros [|d b] H; simpl in H; trivial.
  - apply (f_equal String.length) in H. simpl in H.
    rewrite length_append in H. lia.
  - apply (f_equal String.length) in H. simpl in H.
    rewrite length_append in H. lia.
  - injection H as -> H. f_equal. now apply IH.
Qed.

Lemma join_one_segment p seg : plain seg -> join p seg = p ++ [seg].
Proof.
  intros (Hs & H1 & H2 & H3). unfold join. rewrite Hs. simpl. unfold push.
  apply String.eqb_neq in H1, H2, H3. now rewrite H1, H2, H3.
Qed.

(** X14.  Sources are kept apart by their names alone: when the branch and
    the artifact file name of two sources are single path segments, two
    sources on different branches get different workspace
    subdirectories, and two sources that differ in branch or in repository
    name get different Output Artifact paths. *)
Theorem sources_have_disjoint_paths td dd s1 s2 :
  plain (s_branch s1) -> plain (s_branch s2) ->
  plain (s_name s1 ++ ".json") -> plain (s_name s2 ++ ".json") ->
  (s_branch s1 <> s_branch s2 -> st_of td s1 <> st_of td s2) /\
  (slot s1 <> slot s2 -> artifact_of dd s1 <> artifact_of dd s2).
Proof.
  intros Hb1 Hb2 Hn1 Hn2. unfold st_of, artifact_of, sd_of, slot.
  rewrite !(join_one_segment _ _ Hb1), !(join_one_segment _ _ Hb2),
    (join_one_segment _ _ Hn1), (join_one_segment _ _ Hn2).
  split.
  - intros Hne H. apply app_inv_head in H. congruence.
  - intros Hne H. rewrite <- !app_assoc in H. apply app_inv_head in H.
    simpl in H. injection H as Hb Hn. apply append_inv_tail in Hn.
    apply Hne. congruence.
Qed.

Lemma sources_have_disjoint_paths_witness :
  st_of ["tmp"; "ws"] (source "o" "r1" "main")
    <> st_of ["tmp"; "ws"] (source "o" "r1" "develop") /\
  artifact_of ["repo"; "dist"] (source "o" "r1" "main")
    <> artifact_of ["repo"; "dist"] (source "o" "r2" "main").
Proof.
  assert (Hp : forall seg, split_slash seg EmptyString = [seg] ->
                           seg <> EmptyString -> seg <> "." -> seg <> ".." ->
                           plain seg).
  { intros seg H1 H2 H3 H4. repeat split; trivial. }
  split.
  - apply (proj1 (sources_have_disjoint_paths ["tmp"; "ws"] ["repo"; "dist"]
                    (source "o" "r1" "main") (source "o" "r1" "develop")
                    ltac:(apply Hp; [reflexivity | discriminate ..])
                    ltac:(apply Hp; [reflexivity | discriminate ..])
                    ltac:(apply Hp; [reflexivity | discriminate ..])
                    ltac:(apply Hp; [reflexivity | discriminate ..]))).
    discriminate.
  - apply (proj2 (sources_have_disjoint_paths ["tmp"; "ws"] ["repo"; "dist"]
                    (source "o" "r1" "main") (source "o" "r2" "main")
                    ltac:(apply Hp; [reflexivity | discriminate ..])
                    ltac:(apply Hp; [reflexivity | discriminate ..])
                    ltac:(apply Hp; [reflexivity | discriminate ..])
                    ltac:(apply Hp; [reflexivity | discriminate ..]))).
    discriminate.
Defined.

(** X16.  What the change-detection [build] does with a published
    manifest that is not a mapping.  When the manifest request is answered
    200 with the JSON [null], [deepEqual] throws and [build] is rejected
    with a [TypeError] before it has made any call; when it is answered 200
    with a JSON string or boolean, [deepEqual] finds a difference and
    [build] behaves as the [build] of makefile.js. *)
Theorem build_with_published_non_mapping E order sched c w ps :
  fetchLatestMeta (fetch E) order c = Settled (Normal (VObject ps)) ->
  (fetch E (meta_url c) = Response 200 (Some VNull) ->
   build E order sched c w = (w, Settled (Throw TypeError))) /\
  (forall v,
      fetch E (meta_url c) = Response 200 (Some v) ->
      (exists s, v = VString s) \/ (exists b, v = VBool b) ->
      build E order sched c w = build_always E order sched c w).
Proof.
  intros Hl. split.
  - intros Hr. unfold build. rewrite Hl. unfold fetchCurrentMeta.
    rewrite Hr. reflexivity.
  - intros v Hr Hv.
    apply (proj2 (build_variants_agree E order sched c w _ Hl) v).
    + unfold fetchCurrentMeta. now rewrite Hr.
    + destruct Hv as [[s ->]|[b ->]]; reflexivity.
Qed.

Lemma build_with_published_non_mapping_witness :
  let E := machine (remote_with "abc123" (Response 200 (Some VNull)))
                   clone_ok extract_ok in
  build E [0] [0; 0; 0; 0; 0] one disk = (disk, Settled (Throw TypeError)).
Proof.
  cbv zeta.
  apply (proj1 (build_with_published_non_mapping
                  (machine (remote_with "abc123" (Response 200 (Some VNull)))
                           clone_ok extract_ok)
                  [0] [0; 0; 0; 0; 0] one disk
                  [("main", VObject [("r1", VString "abc123")])] eq_refl)).
  reflexivity.
Defined.

End PipelineExtras.
